(** * wordUP: the character-level Markov engine of [word_up.py]

    A shallow embedding of [build_markov_chain] and
    [generate_words_from_markov], and the properties of the two functions.

    - Python [str] is [string]; a character is an [ascii].
    - [Counter] is an association list in insertion order (the order in which
      [list(choices)] and [choices.values()] enumerate it).
    - [defaultdict(Counter)] is a [gmap string Counter] together with the
      lookup [dd_getitem], which stores an empty [Counter] under a missing key.
    - The set [results] is a [gset string].
    - A Python [int] ([order], [count]) is a [Z].
    - The seed [words] is a Python set; a [list string] stands for the order in
      which the [for] loop visits it.
    - [random.choices] reads the next number of a stream of draws. *)

From Stdlib Require Import ZArith String Ascii List Lia.
From stdpp Require Import base gmap sets list strings fin_maps.
From stdpp Require Import sorting.

Local Open Scope string_scope.
Local Open Scope Z_scope.

(** ** Settings *)

Definition MIN_WORD_LEN : Z := 4.
(** The literal [20] of [for _ in range(20):  # max length]. *)
Definition MAX_SYNTH_LEN : nat := 20.
Definition EXPANSION_MULTIPLIER : Z := 30.

(** ** Strings *)

Module PyStr.

(** [ch * n]: the empty string when [n <= 0]. *)
Definition repeat (ch : ascii) (n : Z) : string :=
  string_of_list_ascii (List.repeat ch (Z.to_nat n)).

(** How a slice bound is read against a string of length [len]: a negative
    bound counts from the end, and the result is clamped to [0 .. len]. *)
Definition bound (len : nat) (k : Z) : nat :=
  if k <? 0 then Z.to_nat (Z.max (k + Z.of_nat len) 0)
  else Z.to_nat (Z.min k (Z.of_nat len)).

(** [s[start:stop]]. *)
Definition slice (s : string) (start stop : Z) : string :=
  let len := String.length s in
  let a := bound len start in
  let b := bound len stop in
  substring a (b - a) s.

(** [s[1:]]. *)
Definition tail (s : string) : string :=
  match s with
  | EmptyString => EmptyString
  | String _ s' => s'
  end.

(** [s + ch] for a one-character [ch]. *)
Definition snoc (s : string) (ch : ascii) : string :=
  s ++ String ch EmptyString.

Definition chars (s : string) : list ascii := list_ascii_of_string s.

Definition len (s : string) : Z := Z.of_nat (String.length s).

End PyStr.

(** ** Counter *)

Abbreviation Counter := (list (ascii * nat)).

Module PyCounter.

(** [c[ch] += 1]: a present key is incremented in place, a missing key is
    appended with count [0 + 1]. *)
Fixpoint incr (c : Counter) (ch : ascii) : Counter :=
  match c with
  | [] => [(ch, 1%nat)]
  | (k, n) :: c' =>
      if decide (k = ch) then (k, S n) :: c' else (k, n) :: incr c' ch
  end.

(** [sum(c.values())]. *)
Definition total (c : Counter) : nat := sum_list (c.*2).

(** [list(c)]. *)
Definition keys (c : Counter) : list ascii := c.*1.

End PyCounter.

(** ** The transition model: [defaultdict(Counter)] *)

Abbreviation Model := (gmap string Counter).

(** [model[k]]: a missing key is stored with [Counter()] before it is
    returned, so a lookup can change the dictionary. *)
Definition dd_getitem (model : Model) (k : string) : Counter * Model :=
  match model !! k with
  | Some c => (c, model)
  | None => ([], <[k := []]> model)
  end.

(** [model[prefix][next_char] += 1]. *)
Definition dd_incr (model : Model) (prefix : string) (next_char : ascii) : Model :=
  let '(c, model') := dd_getitem model prefix in
  <[prefix := PyCounter.incr c next_char]> model'.

(** ** [build_markov_chain] *)

(** The body of [for i in range(len(word))]. [word[i]] is in range for
    every index the loop visits; the [None] branch stands for the
    [IndexError] that cannot occur. *)
Definition build_step (padded word : string) (order : Z) (model : Model)
    (i : nat) : Model :=
  let prefix := PyStr.slice padded (Z.of_nat i) (Z.of_nat i + order) in
  match String.get i word with
  | Some next_char => dd_incr model prefix next_char
  | None => model
  end.

(** The body of [for word in words]. *)
Definition build_word (order : Z) (model : Model) (word : string) : Model :=
  let padded := PyStr.repeat "~"%char order ++ word in
  fold_left (build_step padded word order) (seq 0 (String.length word)) model.

Definition build_markov_chain (words : list string) (order : Z) : Model :=
  fold_left (build_word order) words ∅.

(** ** [random.choices] *)

Inductive exn : Type :=
| IndexError   (* [cum_weights[-1]] of an empty population *)
| ValueError.  (* [Total of weights must be greater than zero], Python 3.9 on *)

Module PyRandom.

(** [population[bisect(cum_weights, x, 0, n - 1)]] for the population
    [(k, w) :: c]: the first key whose cumulative weight exceeds [x], and
    the last key when there is none. Weights are integers, so only the
    integer part [x] of [random() * total] decides the index. *)
Fixpoint bisect (k : ascii) (w : nat) (c : Counter) (x : nat) : ascii :=
  match c with
  | [] => k
  | (k', w') :: c' => if (x <? w)%nat then k else bisect k' w' c' (x - w)
  end.

(** [random.choices(list(c), weights=c.values())[0]], where [draw] is the
    number the generator yields at this call; [draw mod total] stands for
    the integer part of [random() * total], any value in [0 .. total - 1]. *)
Definition choices (c : Counter) (draw : nat) : exn + ascii :=
  match c with
  | [] => inl IndexError
  | (k, w) :: c' =>
      let total := PyCounter.total c in
      if (total =? 0)%nat then inl ValueError
      else inr (bisect k w c' (draw mod total))
  end.

End PyRandom.

(** ** [generate_words_from_markov] *)

(** What a run of the generator can change: the dictionary behind [model]
    (the caller's object), the set [results], and how many times
    [random.choices] has been called. *)
Record gen_state : Type := GenState {
  g_model : Model;
  g_results : gset string;
  g_calls : nat
}.

Inductive status : Type :=
| Returned             (* [return results] was reached *)
| Raised (e : exn)     (* an exception left the function *)
| OutOfFuel.           (* the [while] loop was still running *)

Section Generator.

(** The numbers the random generator yields, call after call. *)
Variable draws : nat -> nat.

(** [for _ in range(20)] with [n] rounds left. *)
Fixpoint synth (n : nat) (model : Model) (calls : nat) (prefix word : string)
    : (exn + string) * Model * nat :=
  match n with
  | O => (inr word, model, calls)
  | S n' =>
      let '(choices, model') := dd_getitem model prefix in
      match choices with
      | [] => (inr word, model', calls)
      | _ :: _ =>
          match PyRandom.choices choices (draws calls) with
          | inl e => (inl e, model', S calls)
          | inr next_char =>
              synth n' model' (S calls)
                    (PyStr.snoc (PyStr.tail prefix) next_char)
                    (PyStr.snoc word next_char)
          end
      end
  end.

(** The body of [while len(results) < count]. *)
Definition iteration (order : Z) (st : gen_state) : option exn * gen_state :=
  let prefix := PyStr.repeat "~"%char order in
  let word := EmptyString in
  match synth MAX_SYNTH_LEN (g_model st) (g_calls st) prefix word with
  | (inl e, model', calls') =>
      (Some e, GenState model' (g_results st) calls')
  | (inr word', model', calls') =>
      if MIN_WORD_LEN <=? PyStr.len word'
      then (None, GenState model' ({[word']} ∪ g_results st) calls')
      else (None, GenState model' (g_results st) calls')
  end.

(** The [while] loop, run for at most [fuel] rounds. *)
Fixpoint generate_loop (fuel : nat) (count order : Z) (st : gen_state)
    {struct fuel} : status * gen_state :=
  if Z.of_nat (size (g_results st)) <? count then
    match fuel with
    | O => (OutOfFuel, st)
    | S fuel' =>
        match iteration order st with
        | (Some e, st') => (Raised e, st')
        | (None, st') => generate_loop fuel' count order st'
        end
    end
  else (Returned, st).

Definition generate_words_from_markov (fuel : nat) (model : Model)
    (count order : Z) : status * gen_state :=
  generate_loop fuel count order (GenState model ∅ 0).

(** The expansion step of [main]: both calls take the default [order=2]. *)
Definition main_expand (fuel : nat) (all_words : list string)
    : status * gen_state :=
  let model := build_markov_chain all_words 2 in
  generate_words_from_markov fuel model
    (Z.of_nat (length all_words) * EXPANSION_MULTIPLIER) 2.

End Generator.

(** ** Measures and invariants of a model *)

(** The sum of all counts of all (prefix, next-character) entries. *)
Definition model_total (model : Model) : nat :=
  map_fold (λ _ c acc, (PyCounter.total c + acc)%nat) 0%nat model.

(** Every prefix key has a next-character entry with count at least 1. *)
Definition model_positive (model : Model) : Prop :=
  ∀ prefix c, model !! prefix = Some c → Exists (λ e, (1 ≤ e.2)%nat) c.

(** The characters a model can emit: the keys of its frequency tables. *)
Definition model_emits (model : Model) (ch : ascii) : Prop :=
  ∃ prefix c, model !! prefix = Some c ∧ ch ∈ PyCounter.keys c.

(** The characters of a corpus. *)
Definition corpus_char (words : list string) (ch : ascii) : Prop :=
  ∃ w, w ∈ words ∧ ch ∈ PyStr.chars w.

(** [sum(len(word) for word in words)]. *)
Definition corpus_len (words : list string) : nat :=
  sum_list (String.length <$> words).

(** ** What generation does to the model *)

(** [model'] is [model] with, possibly, some missing prefixes stored under an
    empty table: no entry of [model] is changed or removed. *)
Definition model_grown (model model' : Model) : Prop :=
  ∀ prefix,
    model' !! prefix = model !! prefix ∨
    (model !! prefix = None ∧ model' !! prefix = Some []).

(** The loop [for i in range(len(word))] entered at index [i], by recursion
    on [rest = word[i:]], whose head is [word[i]]. *)
Fixpoint build_word_from (padded : string) (order : Z) (i : nat) (rest : string)
    (model : Model) : Model :=
  match rest with
  | EmptyString => model
  | String next_char rest' =>
      let prefix := PyStr.slice padded (Z.of_nat i) (Z.of_nat i + order) in
      build_word_from padded order (S i) rest' (dd_incr model prefix next_char)
  end.

(** Every table of the model is empty or has a positive count: the tables
    [random.choices] accepts whenever the generator passes them to it. *)
Definition model_samplable (model : Model) : Prop :=
  ∀ prefix c, model !! prefix = Some c → c = [] ∨ Exists (λ e, (1 ≤ e.2)%nat) c.

(** The words of [words] that have at least [k] characters. *)
Definition words_of_min_len (k : Z) (words : list string) : list string :=
  filter (λ w, k ≤ PyStr.len w) words.

(** ** Reading a model *)

(** [c[ch]] of a [Counter]: the stored count, and 0 for a missing key (which
    the read does not store). *)
Fixpoint counter_get (c : Counter) (ch : ascii) : nat :=
  match c with
  | [] => 0%nat
  | (k, n) :: c' => if decide (k = ch) then n else counter_get c' ch
  end.

(** The count the model holds for [ch] after [prefix]; 0 when the prefix or
    the character is not a key. *)
Definition model_count (model : Model) (prefix : string) (ch : ascii) : nat :=
  counter_get (default [] (model !! prefix)) ch.

(** [ch] is one of the characters [list(model[prefix])] offers the sampler. *)
Definition model_offers (model : Model) (prefix : string) (ch : ascii) : Prop :=
  ch ∈ PyCounter.keys (default [] (model !! prefix)).

(** [prefix] is a dead end of the model: the lookup yields no choices. *)
Definition dead_end (model : Model) (prefix : string) : Prop :=
  default [] (model !! prefix) = [].

(** ** Tables as dictionaries *)

(** The shape of every table [build_markov_chain] stores: no key twice, no
    count below 1, at least one entry. *)
Definition counter_wf (c : Counter) : Prop :=
  NoDup (PyCounter.keys c) ∧ Forall (λ e, (1 ≤ e.2)%nat) c ∧ c ≠ [].

Definition model_wf (model : Model) : Prop :=
  ∀ prefix c, model !! prefix = Some c → counter_wf c.

(** Two models are the same dictionary of dictionaries: the same prefixes,
    and under each prefix the same entries, whatever their insertion order. *)
Definition same_tables (model model' : Model) : Prop :=
  ∀ prefix, option_Forall2 (≡ₚ) (model !! prefix) (model' !! prefix).

(** ** Contexts *)

(** The last [n] characters of [s] (all of [s] when it is shorter). *)
Definition last_chars (n : nat) (s : string) : string :=
  substring (String.length s - n) n s.

(** The context of a character that comes after [seen] in a word: the last
    [order] characters of the sentinel padding followed by [seen]. *)
Definition context (order : nat) (seen : string) : string :=
  last_chars order (PyStr.repeat "~"%char (Z.of_nat order) ++ seen).

(** How many characters of [rest] are [ch] and stand in the context
    [prefix], when [rest] is read after [seen]. *)
Fixpoint context_count (order : nat) (seen rest : string) (prefix : string)
    (ch : ascii) : nat :=
  match rest with
  | EmptyString => 0%nat
  | String c rest' =>
      ((if decide (context order seen = prefix ∧ c = ch) then 1 else 0) +
       context_count order (PyStr.snoc seen c) rest' prefix ch)%nat
  end.

(** How many times [ch] occurs in the corpus in the context [prefix]. *)
Definition corpus_count (order : nat) (words : list string) (prefix : string)
    (ch : ascii) : nat :=
  sum_list ((λ w, context_count order EmptyString w prefix ch) <$> words).

(** The same count read off the padded string by index, the way the loop
    of [build_markov_chain] takes its prefixes. *)
Fixpoint slice_count (padded : string) (order : Z) (i : nat) (rest : string)
    (prefix : string) (ch : ascii) : nat :=
  match rest with
  | EmptyString => 0%nat
  | String c rest' =>
      ((if decide (PyStr.slice padded (Z.of_nat i) (Z.of_nat i + order) = prefix
                   ∧ c = ch) then 1 else 0) +
       slice_count padded order (S i) rest' prefix ch)%nat
  end.

(** ** Walks *)

(** The prefix the generator holds after appending [word] from [prefix]. *)
Fixpoint slide (prefix word : string) : string :=
  match word with
  | EmptyString => prefix
  | String ch word' => slide (PyStr.snoc (PyStr.tail prefix) ch) word'
  end.

(** [word] is a walk through [model] from [prefix]: each character is
    offered by the table of the prefix held when it is drawn. *)
Fixpoint walk (model : Model) (prefix word : string) : Prop :=
  match word with
  | EmptyString => True
  | String ch word' =>
      model_offers model prefix ch ∧
      walk model (PyStr.snoc (PyStr.tail prefix) ch) word'
  end.

(** ** Characters and text of the collector

    A character is a code point below 256. *)

Module PyChar.

Definition code (c : ascii) : nat := nat_of_ascii c.

Definition in_range (lo hi : nat) (c : ascii) : bool :=
  (lo <=? code c)%nat && (code c <=? hi)%nat.

(** The class [[a-z]]. *)
Definition is_lower (c : ascii) : bool := in_range 97 122 c.

(** The class [[a-zA-Z]]. *)
Definition is_letter (c : ascii) : bool := is_lower c || in_range 65 90 c.

(** The class [\w] of a [str] pattern: the alphanumeric characters and the
    underscore. *)
Definition is_word (c : ascii) : bool :=
  in_range 48 57 c || in_range 65 90 c || (code c =? 95)%nat ||
  in_range 97 122 c || (code c =? 170)%nat || in_range 178 179 c ||
  (code c =? 181)%nat || in_range 185 186 c || in_range 188 190 c ||
  in_range 192 214 c || in_range 216 246 c || in_range 248 255 c.

(** [c.lower()]. *)
Definition lower (c : ascii) : ascii :=
  if in_range 65 90 c || in_range 192 214 c || in_range 216 222 c
  then ascii_of_nat (code c + 32) else c.

End PyChar.

Module PyText.

(** [s.lower()]. *)
Fixpoint lower (s : string) : string :=
  match s with
  | EmptyString => EmptyString
  | String c s' => String (PyChar.lower c) (lower s')
  end.

(** [s[:k]]. *)
Definition take (k : nat) (s : string) : string := substring 0 k s.

End PyText.

(** ** [re.findall(r"\b[a-zA-Z]{n,}\b", line)], for [n] of at least 1 *)

Module PyRe.

Definition is_word_at (c : option ascii) : bool :=
  match c with
  | Some c => PyChar.is_word c
  | None => false
  end.

(** [\b] between two neighbours: exactly one of them is a word character,
    the ends of the string counting as none. *)
Definition boundary (prev next : option ascii) : bool :=
  xorb (is_word_at prev) (is_word_at next).

(** How many characters the greedy [[a-zA-Z]{n,}] takes at the head of [s]. *)
Fixpoint letters (s : string) : nat :=
  match s with
  | EmptyString => 0%nat
  | String c s' => if PyChar.is_letter c then S (letters s') else 0%nat
  end.

(** The character before position [k] of [s], [prev] being the one before
    [s]. *)
Definition before (prev : option ascii) (s : string) (k : nat) : option ascii :=
  match k with
  | O => prev
  | S j => String.get j s
  end.

(** The closing [\b] after a repetition of [k] letters, and on failure the
    repetition gives back one letter at a time, down to [n]. *)
Fixpoint backtrack (n k : nat) (prev : option ascii) (s : string) : option nat :=
  if (k <? n)%nat then None
  else if boundary (before prev s k) (String.get k s) then Some k
  else match k with
       | O => None
       | S k' => backtrack n k' prev s
       end.

(** A match of the pattern at the head of [s]: its length. *)
Definition match_at (n : nat) (prev : option ascii) (s : string) : option nat :=
  if boundary prev (String.get 0 s) then backtrack n (letters s) prev s
  else None.

(** The scan of [findall]: a match is tried at every position that the
    match before it does not cover ([skip] characters are still covered). *)
Fixpoint scan (n : nat) (prev : option ascii) (skip : nat) (s : string)
    : list string :=
  match s with
  | EmptyString => []
  | String c s' =>
      match skip with
      | S skip' => scan n (Some c) skip' s'
      | O =>
          match match_at n prev s with
          | Some k => PyText.take k s :: scan n (Some c) (k - 1) s'
          | None => scan n (Some c) 0 s'
          end
      end
  end.

Definition findall (n : nat) (line : string) : list string := scan n None 0 line.

End PyRe.

(** ** [get_subdomains_crtsh] *)

Module PyLine.

(** The characters [str.strip()] removes. *)
Definition is_space (c : ascii) : bool :=
  PyChar.in_range 9 13 c || PyChar.in_range 28 32 c ||
  (PyChar.code c =? 133)%nat || (PyChar.code c =? 160)%nat.

(** [s.lstrip()]. *)
Fixpoint lstrip (s : string) : string :=
  match s with
  | EmptyString => EmptyString
  | String c s' => if is_space c then lstrip s' else s
  end.

(** [s.rstrip()]. *)
Fixpoint rstrip (s : string) : string :=
  match s with
  | EmptyString => EmptyString
  | String c s' =>
      match rstrip s' with
      | EmptyString => if is_space c then EmptyString else String c EmptyString
      | String _ _ as r => String c r
      end
  end.

(** [s.strip()]. *)
Definition strip (s : string) : string := rstrip (lstrip s).

(** [s.split(sep)] for a one-character [sep]. *)
Fixpoint split (sep : ascii) (s : string) : list string :=
  match s with
  | EmptyString => [EmptyString]
  | String c s' =>
      if decide (c = sep) then EmptyString :: split sep s'
      else match split sep s' with
           | [] => [String c EmptyString]
           | piece :: pieces => String c piece :: pieces
           end
  end.

(** [d in s]. *)
Fixpoint contains (d s : string) : bool :=
  if String.prefix d s then true
  else match s with
       | EmptyString => false
       | String _ s' => contains d s'
       end.

(** [sorted(words)] of a set of strings. *)
Definition sorted (words : gset string) : list string :=
  merge_sort String.le (elements words).

End PyLine.

(** The body of [for entry in data] for an entry whose ['name_value'] is
    [name]. *)
Definition crtsh_entry (domain name : string) (subs : gset string) : gset string :=
  fold_left
    (λ subs sub,
       if PyLine.contains domain sub then {[PyLine.strip sub]} ∪ subs else subs)
    (PyLine.split "010"%char name) subs.

(** The loop [for entry in data]; an entry is its ['name_value'] string, or
    [None] when reading it raises. The loop ends in [None] when an entry
    raises. *)
Fixpoint crtsh_entries (domain : string) (data : list (option string))
    (subs : gset string) : option (gset string) :=
  match data with
  | [] => Some subs
  | None :: _ => None
  | Some name :: data' => crtsh_entries domain data' (crtsh_entry domain name subs)
  end.

(** [get_subdomains_crtsh], given what the request brought: [None] when
    [requests.get] or [r.json()] raises, the entries otherwise. *)
Definition get_subdomains_crtsh (response : option (list (option string)))
    (domain : string) : list string :=
  match response with
  | None => []
  | Some data =>
      match crtsh_entries domain data ∅ with
      | Some subs => PyLine.sorted subs
      | None => []
      end
  end.

(** ** The collector's functions *)

Definition COMMON_SUBS : list string :=
  ["www"; "mail"; "webmail"; "vpn"; "remote"; "portal"; "admin"; "login";
   "app"; "cloud"; "dev"].

Section Collector.

(** Whether [dns.resolver.resolve(fqdn, 'A')] returns ([true]) or raises. *)
Variable resolves : string → bool.

(** What [requests.get(url, headers=HEADERS, timeout=5)] gives: the status
    code of the response, or [None] when it raises. *)
Variable http_get : string → option Z.

(** The strings [soup.stripped_strings] yields for the page at [url] before
    the loop of [extract_words_from_url] ends, normally or by an exception;
    none when the request fails. *)
Variable page_texts : string → list string.

(** [brute_subdomains]. *)
Definition brute_subdomains (domain : string) : list string :=
  fold_left
    (λ found sub,
       let fqdn := sub ++ "." ++ domain in
       if resolves fqdn then (found ++ [fqdn])%list else found)
    COMMON_SUBS [].

(** The loop [for scheme in ["https://", "http://"]] for one subdomain: the
    URL appended to [live], if any, and the URLs requested. *)
Fixpoint try_schemes (schemes : list string) (sub : string)
    : option string * list string :=
  match schemes with
  | [] => (None, [])
  | scheme :: schemes' =>
      let url := scheme ++ sub in
      match http_get url with
      | Some status_code =>
          if status_code <? 400 then (Some url, [url])
          else let '(found, asked) := try_schemes schemes' sub in
               (found, url :: asked)
      | None =>
          let '(found, asked) := try_schemes schemes' sub in
          (found, url :: asked)
      end
  end.

(** [check_http_live], with the list of the URLs it requested. *)
Definition check_http_live_asking (subdomains : list string)
    : list string * list string :=
  fold_left
    (λ '(live, asked) sub,
       let '(found, asked') := try_schemes ["https://"; "http://"] sub in
       (match found with
        | Some url => (live ++ [url])%list
        | None => live
        end, (asked ++ asked')%list))
    subdomains ([], []).

Definition check_http_live (subdomains : list string) : list string :=
  (check_http_live_asking subdomains).1.

(** The loop over the lines of a page in [extract_words_from_url]. *)
Definition extract_words_from_texts (texts : list string) : gset string :=
  fold_left
    (λ words line,
       fold_left (λ words word, {[PyText.lower word]} ∪ words)
         (PyRe.findall (Z.to_nat MIN_WORD_LEN) line) words)
    texts ∅.

(** [extract_words_from_url]. *)
Definition extract_words_from_url (url : string) : gset string :=
  extract_words_from_texts (page_texts url).

(** The words [main] collects: [all_words] after the loop over
    [live_hosts]. *)
Definition main_all_words (live_hosts : list string) : gset string :=
  fold_left (λ all_words url, all_words ∪ extract_words_from_url url)
    live_hosts ∅.

End Collector.

(** A request for [url] comes back with a status code below 400. *)
Definition answers_ok (http_get : string → option Z) (url : string) : bool :=
  match http_get url with
  | Some status_code => status_code <? 400
  | None => false
  end.

(** The names [brute_subdomains] tries, in the order it tries them. *)
Definition brute_candidates (domain : string) : list string :=
  (λ sub, sub ++ "." ++ domain) <$> COMMON_SUBS.

(** The URL of [sub] that [check_http_live] keeps, if any: the [https] one
    when it answers, else the [http] one when that answers. *)
Definition live_url_of (http_get : string → option Z) (sub : string)
    : option string :=
  if answers_ok http_get ("https://" ++ sub) then Some ("https://" ++ sub)
  else if answers_ok http_get ("http://" ++ sub) then Some ("http://" ++ sub)
  else None.

(** The URLs of [sub] that [check_http_live] requests. *)
Definition asked_of (http_get : string → option Z) (sub : string) : list string :=
  if answers_ok http_get ("https://" ++ sub) then ["https://" ++ sub]
  else ["https://" ++ sub; "http://" ++ sub].

(** [w] stands in [s] at index [i] as a whole word of at least [n] letters:
    only characters of [[a-zA-Z]], with no word character right before it
    ([prev] being the character before [s]) or right after it. *)
Definition token_at (n : nat) (prev : option ascii) (s : string) (i : nat)
    (w : string) : Prop :=
  substring i (String.length w) s = w ∧
  (i + String.length w ≤ String.length s)%nat ∧
  (n ≤ String.length w)%nat ∧
  Forall (λ c, PyChar.is_letter c = true) (PyStr.chars w) ∧
  PyRe.is_word_at (PyRe.before prev s i) = false ∧
  PyRe.is_word_at (String.get (i + String.length w) s) = false.

(** The words [main] collects for a domain, given the list
    [get_subdomains_crtsh] returned: the subdomains of both sources, as a
    set, are probed and the pages of the live hosts are read. *)
Definition main_words (resolves : string → bool) (http_get : string → option Z)
    (page_texts : string → list string) (crtsh : list string) (domain : string)
    : gset string :=
  let subdomains : gset string :=
    list_to_set crtsh ∪ list_to_set (brute_subdomains resolves domain) in
  let live_hosts := check_http_live http_get (elements subdomains) in
  main_all_words page_texts live_hosts.

(** A word the core is meant to be fed: at least [MIN_WORD_LEN] characters,
    all of them lowercase letters [a-z]. *)
Definition seed_word (w : string) : Prop :=
  MIN_WORD_LEN ≤ PyStr.len w ∧
  Forall (λ c, PyChar.is_lower c = true) (PyStr.chars w).

(** * Lemmas *)

Section CounterFacts.

Implicit Types (c : Counter) (ch : ascii).

Lemma incr_total c ch : PyCounter.total (PyCounter.incr c ch) = S (PyCounter.total c).
Proof.
  unfold PyCounter.total.
  induction c as [|[k n] c IH]; csimpl; [done|].
  case_decide; csimpl; [done|].
  rewrite IH. lia.
Qed.

Lemma incr_keys c ch k :
  k ∈ PyCounter.keys (PyCounter.incr c ch) ↔ k = ch ∨ k ∈ PyCounter.keys c.
Proof.
  unfold PyCounter.keys.
  induction c as [|[k' n] c IH]; csimpl.
  - rewrite list_elem_of_singleton, elem_of_nil. tauto.
  - case_decide; csimpl; rewrite !elem_of_cons; [subst; tauto|].
    rewrite IH. tauto.
Qed.

Lemma incr_positive c ch :
  Exists (λ e, (1 ≤ e.2)%nat) (PyCounter.incr c ch).
Proof.
  induction c as [|[k n] c IH]; simpl.
  - apply Exists_cons_hd. simpl. lia.
  - case_decide.
    + apply Exists_cons_hd. simpl. lia.
    + by apply Exists_cons_tl.
Qed.

End CounterFacts.

Section ModelFacts.

Implicit Types (model : Model) (prefix : string) (ch : ascii).

(** The two dictionary writes of [model[prefix][next_char] += 1] amount to
    one insertion. *)
Lemma dd_incr_insert model prefix ch :
  dd_incr model prefix ch =
  <[prefix := PyCounter.incr (default [] (model !! prefix)) ch]> model.
Proof.
  unfold dd_incr, dd_getitem.
  destruct (model !! prefix) as [c|]; simpl; [done|].
  by rewrite insert_insert_eq.
Qed.

Lemma model_total_insert_fresh model prefix (c : Counter) :
  model !! prefix = None →
  model_total (<[prefix := c]> model) = (PyCounter.total c + model_total model)%nat.
Proof.
  intros Hnone. unfold model_total.
  rewrite map_fold_insert_L; [done| |done].
  intros. lia.
Qed.

Lemma model_total_delete model prefix (c : Counter) :
  model !! prefix = Some c →
  model_total model = (PyCounter.total c + model_total (delete prefix model))%nat.
Proof.
  intros Hsome. unfold model_total.
  rewrite (map_fold_delete_L _ _ prefix c model); [done| |done].
  intros. lia.
Qed.

Lemma model_total_empty : model_total ∅ = 0%nat.
Proof. unfold model_total. by rewrite map_fold_empty. Qed.

Lemma dd_incr_total model prefix ch :
  model_total (dd_incr model prefix ch) = S (model_total model).
Proof.
  rewrite dd_incr_insert.
  destruct (model !! prefix) as [c|] eqn:Hlook.
  - rewrite <- insert_delete_eq.
    rewrite model_total_insert_fresh by apply lookup_delete_eq.
    rewrite (model_total_delete model prefix c Hlook), incr_total.
    simpl. lia.
  - rewrite model_total_insert_fresh by done.
    rewrite incr_total. simpl. lia.
Qed.

Lemma dd_incr_positive model prefix ch :
  model_positive model → model_positive (dd_incr model prefix ch).
Proof.
  intros Hpos p c. rewrite dd_incr_insert, lookup_insert.
  case_decide as Heq.
  - intros [= <-]. apply incr_positive.
  - apply Hpos.
Qed.

Lemma dd_incr_emits model prefix ch k :
  model_emits (dd_incr model prefix ch) k → k = ch ∨ model_emits model k.
Proof.
  intros (p & c & Hlook & Hin). rewrite dd_incr_insert, lookup_insert in Hlook.
  case_decide as Heq.
  - injection Hlook as <-. apply incr_keys in Hin as [->|Hin]; [by left|].
    right. destruct (model !! prefix) as [c0|] eqn:Hp; simpl in Hin.
    + by exists prefix, c0.
    + by apply elem_of_nil in Hin.
  - right. by exists p, c.
Qed.

End ModelFacts.

Section StringFacts.

Lemma snoc_length s ch : String.length (PyStr.snoc s ch) = S (String.length s).
Proof.
  unfold PyStr.snoc. induction s as [|a s IH]; simpl; [done|]. by rewrite IH.
Qed.

Lemma snoc_chars s ch : PyStr.chars (PyStr.snoc s ch) = (PyStr.chars s ++ [ch])%list.
Proof.
  unfold PyStr.snoc, PyStr.chars.
  induction s as [|a s IH]; simpl; [done|]. by rewrite IH.
Qed.

Lemma snoc_append s ch rest : PyStr.snoc s ch ++ rest = s ++ String ch rest.
Proof.
  unfold PyStr.snoc. induction s as [|a s IH]; [done|].
  change (String a ((s ++ String ch EmptyString) ++ rest) =
          String a (s ++ String ch rest)).
  by rewrite IH.
Qed.

(** [(pre + ch + rest)[len(pre)]] is [ch]. *)
Lemma get_after_prefix pre ch rest :
  String.get (String.length pre) (pre ++ String ch rest) = Some ch.
Proof. induction pre as [|a pre IH]; simpl; [done|apply IH]. Qed.

End StringFacts.

Section BuildFacts.

Implicit Types (model : Model) (words : list string) (order : Z).

(** The indexed loop of the source visits the characters of the word one
    after the other. *)
Lemma build_steps_from padded order rest : ∀ pre model,
  fold_left (build_step padded (pre ++ rest) order)
    (seq (String.length pre) (String.length rest)) model =
  build_word_from padded order (String.length pre) rest model.
Proof.
  induction rest as [|ch rest IH]; intros pre model; [done|].
  cbn [String.length seq fold_left build_word_from].
  unfold build_step at 2. rewrite get_after_prefix.
  rewrite <- (snoc_append pre ch rest), <- (snoc_length pre ch). apply IH.
Qed.

Lemma build_word_unfold order model word :
  build_word order model word =
  build_word_from (PyStr.repeat "~"%char order ++ word) order 0 word model.
Proof. unfold build_word. apply (build_steps_from _ order word EmptyString). Qed.

Lemma build_word_from_total padded order i rest model :
  model_total (build_word_from padded order i rest model) =
  (String.length rest + model_total model)%nat.
Proof.
  revert i model. induction rest as [|ch rest IH]; intros i model; simpl.
  - done.
  - rewrite IH, dd_incr_total. lia.
Qed.

Lemma build_word_from_positive padded order i rest model :
  model_positive model →
  model_positive (build_word_from padded order i rest model).
Proof.
  revert i model. induction rest as [|ch rest IH]; intros i model Hpos; simpl.
  - done.
  - by apply IH, dd_incr_positive.
Qed.

Lemma build_word_from_emits padded order i rest model k :
  model_emits (build_word_from padded order i rest model) k →
  k ∈ PyStr.chars rest ∨ model_emits model k.
Proof.
  revert i model. induction rest as [|ch rest IH]; intros i model; simpl.
  - by right.
  - intros Hk. apply IH in Hk as [Hk|Hk].
    + left. unfold PyStr.chars. simpl. by apply list_elem_of_further.
    + apply dd_incr_emits in Hk as [->|Hk]; [left|by right].
      unfold PyStr.chars. simpl. apply list_elem_of_here.
Qed.

(** The loops of [build_markov_chain], entered with a dictionary that
    already holds [model]. *)
Lemma build_fold_total order words model :
  model_total (fold_left (build_word order) words model) =
  (corpus_len words + model_total model)%nat.
Proof.
  revert model. induction words as [|w words IH]; intros model; simpl.
  - done.
  - rewrite IH, build_word_unfold, build_word_from_total.
    unfold corpus_len. csimpl. lia.
Qed.

Lemma build_fold_positive order words model :
  model_positive model →
  model_positive (fold_left (build_word order) words model).
Proof.
  revert model. induction words as [|w words IH]; intros model Hpos; simpl.
  - done.
  - apply IH. rewrite build_word_unfold. by apply build_word_from_positive.
Qed.

Lemma build_fold_emits order words model k :
  model_emits (fold_left (build_word order) words model) k →
  corpus_char words k ∨ model_emits model k.
Proof.
  revert model. induction words as [|w words IH]; intros model; simpl.
  - by right.
  - intros Hk. apply IH in Hk as [(w' & Hw' & Hk)|Hk].
    + left. exists w'. split; [by apply list_elem_of_further|done].
    + rewrite build_word_unfold in Hk.
      apply build_word_from_emits in Hk as [Hk|Hk]; [left|by right].
      exists w. split; [apply list_elem_of_here|done].
Qed.

Lemma model_positive_empty : model_positive ∅.
Proof. intros p c Hlook. by rewrite lookup_empty in Hlook. Qed.

Lemma model_emits_empty k : ¬ model_emits ∅ k.
Proof. intros (p & c & Hlook & _). by rewrite lookup_empty in Hlook. Qed.

Lemma build_total words order :
  model_total (build_markov_chain words order) = corpus_len words.
Proof.
  unfold build_markov_chain.
  rewrite build_fold_total, model_total_empty. lia.
Qed.

Lemma build_positive words order :
  model_positive (build_markov_chain words order).
Proof.
  unfold build_markov_chain. apply build_fold_positive, model_positive_empty.
Qed.

Lemma build_emits words order k :
  model_emits (build_markov_chain words order) k → corpus_char words k.
Proof.
  unfold build_markov_chain.
  intros Hk. apply build_fold_emits in Hk as [Hk|Hk]; [done|].
  by apply model_emits_empty in Hk.
Qed.

End BuildFacts.

Section GrownFacts.

Implicit Types (model : Model).

Lemma model_grown_refl model : model_grown model model.
Proof. intros p. by left. Qed.

Lemma model_grown_trans model1 model2 model3 :
  model_grown model1 model2 → model_grown model2 model3 →
  model_grown model1 model3.
Proof.
  intros H12 H23 p. destruct (H12 p) as [E12|[N1 E2]], (H23 p) as [E23|[N2 E3]].
  - left. congruence.
  - right. split; congruence.
  - right. split; congruence.
  - congruence.
Qed.

Lemma dd_getitem_spec model k c model' :
  dd_getitem model k = (c, model') →
  c = default [] (model !! k) ∧ model_grown model model'.
Proof.
  unfold dd_getitem. destruct (model !! k) as [c0|] eqn:Hlook; intros [= <- <-].
  - split; [done|apply model_grown_refl].
  - split; [done|]. intros p. rewrite lookup_insert. case_decide as Heq.
    + subst p. by right.
    + by left.
Qed.

Lemma model_grown_emits model model' ch :
  model_grown model model' → model_emits model' ch → model_emits model ch.
Proof.
  intros Hg (p & c & Hlook & Hin). destruct (Hg p) as [E|[_ E]].
  - exists p, c. split; [congruence|done].
  - rewrite E in Hlook. injection Hlook as <-. by apply elem_of_nil in Hin.
Qed.

Lemma model_grown_samplable model model' :
  model_grown model model' → model_samplable model → model_samplable model'.
Proof.
  intros Hg Hs p c Hlook. destruct (Hg p) as [E|[_ E]].
  - apply (Hs p). congruence.
  - left. congruence.
Qed.

Lemma model_positive_samplable model : model_positive model → model_samplable model.
Proof. intros Hpos p c Hlook. right. by eapply Hpos. Qed.

End GrownFacts.

Section SamplerFacts.

Lemma bisect_in k w (c : Counter) x :
  PyRandom.bisect k w c x ∈ k :: PyCounter.keys c.
Proof.
  revert k w x. induction c as [|[k' w'] c IH]; intros k w x; simpl.
  - apply list_elem_of_here.
  - destruct (x <? w)%nat; [apply list_elem_of_here|].
    apply list_elem_of_further, IH.
Qed.

(** Whatever number is drawn, the sampled character is a key of the table. *)
Lemma choices_in (c : Counter) draw ch :
  PyRandom.choices c draw = inr ch → ch ∈ PyCounter.keys c.
Proof.
  unfold PyRandom.choices. destruct c as [|[k w] c]; [done|].
  destruct (_ =? _)%nat; [done|]. intros [= <-]. apply bisect_in.
Qed.

(** A table with a positive count never makes the sampler raise. *)
Lemma choices_positive (c : Counter) draw :
  Exists (λ e, (1 ≤ e.2)%nat) c → ∃ ch, PyRandom.choices c draw = inr ch.
Proof.
  intros Hpos. unfold PyRandom.choices. destruct c as [|[k w] c].
  - by apply Exists_nil in Hpos.
  - assert (PyCounter.total ((k, w) :: c) ≠ 0%nat) as Hne.
    { unfold PyCounter.total. clear draw.
      induction Hpos as [[k1 w1] l H1|[k1 w1] l _ IH]; csimpl in *; lia. }
    apply Nat.eqb_neq in Hne. rewrite Hne. eauto.
Qed.

End SamplerFacts.

Section GeneratorFacts.

Variable draws : nat -> nat.

(** The inner loop: the model only grows by empty tables, the sampler is
    called once per appended character, at most [n] characters are
    appended, and each of them is emitted by the model. *)
Lemma synth_spec n : ∀ model calls prefix word r model' calls',
  synth draws n model calls prefix word = (r, model', calls') →
  model_grown model model' ∧
  (calls ≤ calls')%nat ∧
  match r with
  | inl _ => True
  | inr w =>
      (String.length word ≤ String.length w ≤ String.length word + n)%nat ∧
      calls' = (calls + (String.length w - String.length word))%nat ∧
      ∀ ch, ch ∈ PyStr.chars w → ch ∈ PyStr.chars word ∨ model_emits model ch
  end.
Proof.
  induction n as [|n IH]; intros model calls prefix word r model' calls'; simpl.
  - intros [= <- <- <-]. split; [apply model_grown_refl|].
    split; [lia|]. split; [lia|]. split; [lia|]. by left.
  - destruct (dd_getitem model prefix) as [c model1] eqn:Hget.
    apply dd_getitem_spec in Hget as [Hc Hgrown].
    destruct c as [|e c].
    { intros [= <- <- <-]. split; [done|].
      split; [lia|]. split; [lia|]. split; [lia|]. by left. }
    destruct (PyRandom.choices (e :: c) (draws calls)) as [err|next_char] eqn:Hch.
    { intros [= <- <- <-]. split; [done|]. split; [lia|done]. }
    intros Hsynth. apply IH in Hsynth as (Hgrown' & Hmono & Hr).
    split; [by eapply model_grown_trans|]. split; [lia|].
    destruct r as [err|w]; [done|].
    rewrite snoc_length in Hr. destruct Hr as (Hlen & Hcalls & Hchars).
    split; [lia|]. split; [lia|].
    intros ch Hin. apply Hchars in Hin as [Hin|Hin].
    + rewrite snoc_chars in Hin. apply elem_of_app in Hin as [Hin|Hin]; [by left|].
      apply list_elem_of_singleton in Hin as ->. right.
      apply choices_in in Hch.
      destruct (model !! prefix) as [c0|] eqn:Hlook; simpl in Hc; [|done].
      exists prefix, c0. split; [done|]. by rewrite <- Hc.
    + right. by eapply model_grown_emits.
Qed.

(** On a model whose tables are empty or positive the sampler never raises. *)
Lemma synth_no_raise n : ∀ model calls prefix word r model' calls',
  model_samplable model →
  synth draws n model calls prefix word = (r, model', calls') →
  ∃ w, r = inr w.
Proof.
  induction n as [|n IH]; intros model calls prefix word r model' calls' Hs; simpl.
  - intros [= <- <- <-]. by eexists.
  - destruct (dd_getitem model prefix) as [c model1] eqn:Hget.
    apply dd_getitem_spec in Hget as [Hc Hgrown].
    destruct c as [|e c]; [intros [= <- <- <-]; by eexists|].
    assert (Exists (λ e, (1 ≤ e.2)%nat) (e :: c)) as Hpos.
    { destruct (model !! prefix) as [c0|] eqn:Hlook; simpl in Hc; [|done].
      subst c0. by destruct (Hs _ _ Hlook). }
    destruct (choices_positive (e :: c) (draws calls) Hpos) as (ch & ->).
    apply IH. by eapply model_grown_samplable.
Qed.

(** One round of the [while] loop. *)
Lemma iteration_spec order st e st' :
  iteration draws order st = (e, st') →
  model_grown (g_model st) (g_model st') ∧
  (g_calls st ≤ g_calls st')%nat ∧
  (g_results st' = g_results st ∨
   ∃ w, g_results st' = {[w]} ∪ g_results st ∧
        MIN_WORD_LEN ≤ PyStr.len w ≤ Z.of_nat MAX_SYNTH_LEN ∧
        ∀ ch, ch ∈ PyStr.chars w → model_emits (g_model st) ch).
Proof.
  unfold iteration.
  destruct (synth _ _ _ _ _ _) as [[r model'] calls'] eqn:Hsynth.
  apply synth_spec in Hsynth as (Hgrown & Hmono & Hr).
  destruct r as [err|w].
  { intros [= <- <-]. simpl. split; [done|]. split; [done|by left]. }
  destruct Hr as (Hlen & Hcalls & Hchars). simpl in Hlen.
  destruct (MIN_WORD_LEN <=? PyStr.len w) eqn:Hmin; intros [= <- <-]; simpl.
  - split; [done|]. split; [done|]. right. exists w. split; [done|].
    apply Z.leb_le in Hmin. split; [unfold PyStr.len, MAX_SYNTH_LEN in *; lia|].
    intros ch Hin. apply Hchars in Hin as [Hin|Hin]; [|done].
    by apply elem_of_nil in Hin.
  - split; [done|]. split; [done|]. by left.
Qed.

(** A property that every round of the loop keeps holds in the state the
    loop stops in, however it stops. *)
Lemma generate_loop_invariant (P : gen_state → Prop) count order :
  (∀ st e st',
      P st → Z.of_nat (size (g_results st)) < count →
      iteration draws order st = (e, st') → P st') →
  ∀ fuel st, P st → P (generate_loop draws fuel count order st).2.
Proof.
  intros Hstep fuel. induction fuel as [|fuel IH]; intros st HP; simpl.
  - by destruct (_ <? count).
  - destruct (_ <? count) eqn:Hlt; [|done]. apply Z.ltb_lt in Hlt.
    destruct (iteration draws order st) as [[e|] st'] eqn:Hit.
    + simpl. by eapply Hstep.
    + apply IH. by eapply Hstep.
Qed.

(** [return results] is reached only when the loop test fails. *)
Lemma generate_loop_returned fuel count order : ∀ st st',
  generate_loop draws fuel count order st = (Returned, st') →
  count ≤ Z.of_nat (size (g_results st')).
Proof.
  induction fuel as [|fuel IH]; intros st st'; simpl.
  - destruct (_ <? count) eqn:Hlt; [done|].
    intros [= <-]. by apply Z.ltb_ge in Hlt.
  - destruct (_ <? count) eqn:Hlt.
    + destruct (iteration draws order st) as [[e|] st1]; [done|]. apply IH.
    + intros [= <-]. by apply Z.ltb_ge in Hlt.
Qed.

(** With the target already met the loop body is not entered. *)
Lemma generate_loop_met fuel count order st :
  count ≤ Z.of_nat (size (g_results st)) →
  generate_loop draws fuel count order st = (Returned, st).
Proof.
  intros Hle. apply Z.ltb_ge in Hle. destruct fuel; simpl; by rewrite Hle.
Qed.

Lemma generate_loop_no_raise fuel count order : ∀ st e,
  model_samplable (g_model st) →
  (generate_loop draws fuel count order st).1 ≠ Raised e.
Proof.
  induction fuel as [|fuel IH]; intros st e Hs; simpl.
  - by destruct (_ <? count).
  - destruct (_ <? count); [|done].
    destruct (iteration draws order st) as [[e'|] st'] eqn:Hit.
    + unfold iteration in Hit.
      destruct (synth _ _ _ _ _ _) as [[r model'] calls'] eqn:Hsynth.
      apply synth_no_raise in Hsynth as (w & ->); [|done].
      by destruct (_ <=? _).
    + apply IH. apply iteration_spec in Hit as (Hgrown & _).
      by eapply model_grown_samplable.
Qed.

(** A model all of whose tables are empty: the inner loop stops at its
    first lookup, with the empty word and without a draw. *)
Lemma synth_blank n model calls prefix word :
  (∀ k c, model !! k = Some c → c = []) →
  ∃ model',
    synth draws n model calls prefix word = (inr word, model', calls) ∧
    (∀ k c, model' !! k = Some c → c = []).
Proof.
  intros Hblank. destruct n as [|n]; simpl; [by exists model|].
  unfold dd_getitem. destruct (model !! prefix) as [c|] eqn:Hlook.
  - apply Hblank in Hlook as ->. by exists model.
  - eexists. split; [done|]. intros k c. rewrite lookup_insert.
    case_decide; [congruence|apply Hblank].
Qed.

Lemma iteration_blank order st :
  (∀ k c, g_model st !! k = Some c → c = []) →
  ∃ model',
    iteration draws order st = (None, GenState model' (g_results st) (g_calls st)) ∧
    (∀ k c, model' !! k = Some c → c = []).
Proof.
  intros Hblank. unfold iteration.
  destruct (synth_blank MAX_SYNTH_LEN (g_model st) (g_calls st)
              (PyStr.repeat "~"%char order) EmptyString Hblank)
    as (model' & -> & Hblank').
  exists model'. by split.
Qed.

(** On such a model the loop never adds a word: with a positive target it
    is still running after any number of rounds. *)
Lemma generate_loop_blank fuel count order : ∀ st,
  (∀ k c, g_model st !! k = Some c → c = []) →
  Z.of_nat (size (g_results st)) < count →
  ∃ model',
    generate_loop draws fuel count order st =
    (OutOfFuel, GenState model' (g_results st) (g_calls st)).
Proof.
  induction fuel as [|fuel IH]; intros st Hblank Hlt; simpl.
  - apply Z.ltb_lt in Hlt. rewrite Hlt. exists (g_model st). by destruct st.
  - pose proof Hlt as Hlt'. apply Z.ltb_lt in Hlt'. rewrite Hlt'.
    destruct (iteration_blank order st Hblank) as (model' & -> & Hblank').
    destruct (IH (GenState model' (g_results st) (g_calls st)) Hblank' Hlt)
      as (model'' & ->).
    by exists model''.
Qed.

End GeneratorFacts.

(** * The generator on small inputs *)

(** With every draw [0] the model of [{"bank"}] yields "bank" in one round;
    the last lookup, of the unseen prefix "nk", is stored in the model. *)
Example generate_bank :
  generate_words_from_markov (λ _, 0%nat) 1 (build_markov_chain ["bank"] 2) 1 2 =
  (Returned,
   GenState (<["nk" := []]> (build_markov_chain ["bank"] 2)) {["bank"]} 4).
Proof. vm_compute. reflexivity. Qed.

(** On a model that [build_markov_chain] returned no run ends in an
    exception: it returns, or it is still looping. *)
Lemma generate_built_never_raises (draws : nat → nat) (fuel : nat)
    (words : list string) (order count order' : Z) (e : exn) :
  (generate_words_from_markov draws fuel (build_markov_chain words order)
     count order').1 ≠ Raised e.
Proof.
  apply generate_loop_no_raise. cbn [g_model].
  apply model_positive_samplable, build_positive.
Qed.

(** * Model builder *)

(** Claim C4 (count conservation). For every seed set and every order of at
    least 1, the counts of all (prefix, next-character) entries of the model
    returned by [build_markov_chain] add up to the sum of [len(word)] over
    the words of the seed set. *)
Theorem build_count_conservation (words : list string) (order : Z) :
  1 ≤ order →
  model_total (build_markov_chain words order) = corpus_len words.
Proof. intros _. apply build_total. Qed.

Lemma build_count_conservation_witness :
  1 ≤ 2 ∧
  model_total (build_markov_chain ["bank"; "rank"; "tank"] 2) =
  corpus_len ["bank"; "rank"; "tank"].
Proof. split; [lia | apply (build_count_conservation _ 2); lia]. Defined.

(** Claim C6 (scenario). For the seed set {"bank", "rank", "tank"} and order
    2, in whichever order the set is visited, the model maps the prefix "~~"
    exactly to the table {'b': 1, 'r': 1, 't': 1} and the prefix "an" exactly
    to {'k': 3}. *)
Theorem build_bank_rank_tank (words : list string) :
  words ≡ₚ ["bank"; "rank"; "tank"] →
  ∃ start : Counter,
    build_markov_chain words 2 !! "~~" = Some start ∧
    start ≡ₚ [("b"%char, 1%nat); ("r"%char, 1%nat); ("t"%char, 1%nat)] ∧
    build_markov_chain words 2 !! "an" = Some [("k"%char, 3%nat)].
Proof.
  intros Hperm. symmetry in Hperm. apply permutations_Permutation in Hperm.
  vm_compute in Hperm.
  repeat (apply elem_of_cons in Hperm as [->|Hperm]);
    [..|by apply elem_of_nil in Hperm];
    (eexists; split; [vm_compute; reflexivity|]; split; [|vm_compute; reflexivity]).
  all: symmetry; apply permutations_Permutation; vm_compute; repeat constructor.
Qed.

Lemma build_bank_rank_tank_witness :
  ["tank"; "bank"; "rank"] ≡ₚ ["bank"; "rank"; "tank"] ∧
  ∃ start : Counter,
    build_markov_chain ["tank"; "bank"; "rank"] 2 !! "~~" = Some start ∧
    start ≡ₚ [("b"%char, 1%nat); ("r"%char, 1%nat); ("t"%char, 1%nat)] ∧
    build_markov_chain ["tank"; "bank"; "rank"] 2 !! "an" = Some [("k"%char, 3%nat)].
Proof.
  assert (["tank"; "bank"; "rank"] ≡ₚ ["bank"; "rank"; "tank"]) as Hperm.
  { symmetry. apply permutations_Permutation. vm_compute. repeat constructor. }
  split; [exact Hperm | apply (build_bank_rank_tank _ Hperm)].
Defined.

(** [build_markov_chain] has no length test: a seed word shorter than
    [MIN_WORD_LEN] is counted like any other. *)
Lemma short_seed_word_is_counted :
  build_markov_chain ["ab"] 2 ≠
  build_markov_chain (words_of_min_len MIN_WORD_LEN ["ab"]) 2.
Proof.
  intros Heq. apply (f_equal (λ m : Model, m !! "~~")) in Heq.
  vm_compute in Heq. discriminate Heq.
Qed.

(** Claim C8, amended. [build_markov_chain] does not compare a seed word with
    [MIN_WORD_LEN]: the only word that contributes nothing is the empty one.
    For every input, the model equals the model built from the words of
    length at least 1, and a word adds [len(word)] to the counts whatever
    its length. *)
Theorem build_skips_only_empty_words (words : list string) (order : Z)
    (model : Model) (word : string) :
  build_markov_chain words order =
  build_markov_chain (words_of_min_len 1 words) order ∧
  model_total (build_word order model word) =
  (String.length word + model_total model)%nat.
Proof.
  split.
  - unfold build_markov_chain. generalize (∅ : Model) as m.
    induction words as [|w words IH]; intros m; [done|].
    unfold words_of_min_len in *. rewrite filter_cons. case_decide as Hlen.
    + simpl. apply IH.
    + simpl. rewrite IH. destruct w as [|a w]; [done|].
      unfold PyStr.len in Hlen. simpl in Hlen. lia.
  - rewrite build_word_unfold. apply build_word_from_total.
Qed.

(** * Word generator *)

(** Claim C9 (zero target). With target count 0 the generator returns the
    empty set at once, for every model: the loop body is not entered, the
    sampler is never called and the model is not touched. *)
Theorem generate_zero_target (draws : nat → nat) (fuel : nat) (model : Model)
    (order : Z) :
  generate_words_from_markov draws fuel model 0 order =
  (Returned, GenState model ∅ 0).
Proof.
  unfold generate_words_from_markov. apply generate_loop_met. lia.
Qed.

Section ResultFacts.

Variable draws : nat → nat.

Lemma size_add_word (w : string) (results : gset string) :
  (size ({[w]} ∪ results) ≤ S (size results))%nat.
Proof.
  rewrite size_union_alt, size_singleton.
  assert (size (results ∖ {[w]}) ≤ size results)%nat; [|lia].
  apply subseteq_size. intros x Hx. by apply elem_of_difference in Hx as [? _].
Qed.

(** The set never grows past a target it has not passed yet. *)
Lemma generate_loop_at_most fuel count order st :
  Z.of_nat (size (g_results st)) ≤ count →
  Z.of_nat (size (g_results (generate_loop draws fuel count order st).2)) ≤ count.
Proof.
  apply (generate_loop_invariant draws
           (λ st, Z.of_nat (size (g_results st)) ≤ count)).
  intros st0 e st' Hle Hlt Hit.
  apply iteration_spec in Hit as (_ & _ & [->|(w & -> & _)]); [done|].
  pose proof (size_add_word w (g_results st0)). lia.
Qed.

(** Every word of the set was accepted by the length test after an inner
    loop of at most [MAX_SYNTH_LEN] rounds. *)
Lemma generate_loop_lengths fuel count order st :
  (∀ w, w ∈ g_results st →
        MIN_WORD_LEN ≤ PyStr.len w ≤ Z.of_nat MAX_SYNTH_LEN) →
  ∀ w, w ∈ g_results (generate_loop draws fuel count order st).2 →
       MIN_WORD_LEN ≤ PyStr.len w ≤ Z.of_nat MAX_SYNTH_LEN.
Proof.
  apply (generate_loop_invariant draws
           (λ st, ∀ w, w ∈ g_results st →
                       MIN_WORD_LEN ≤ PyStr.len w ≤ Z.of_nat MAX_SYNTH_LEN)).
  intros st0 e st' Hall _ Hit w.
  apply iteration_spec in Hit as (_ & _ & [->|(w' & -> & Hlen & _)]); [apply Hall|].
  rewrite elem_of_union, elem_of_singleton. intros [->|Hin]; [done|by apply Hall].
Qed.

(** Every character of every word of the set is emitted by the model the
    run started from. *)
Lemma generate_loop_alphabet (ok : ascii → Prop) fuel count order st :
  (∀ ch, model_emits (g_model st) ch → ok ch) →
  (∀ w ch, w ∈ g_results st → ch ∈ PyStr.chars w → ok ch) →
  ∀ w ch, w ∈ g_results (generate_loop draws fuel count order st).2 →
          ch ∈ PyStr.chars w → ok ch.
Proof.
  intros Hmodel Hres.
  apply (generate_loop_invariant draws
           (λ st, (∀ ch, model_emits (g_model st) ch → ok ch) ∧
                  (∀ w ch, w ∈ g_results st → ch ∈ PyStr.chars w → ok ch))
           count order); [|by split].
  intros st0 e st' [Hm Hr] _ Hit.
  apply iteration_spec in Hit as (Hgrown & _ & Hres').
  split.
  - intros ch Hch. by eapply Hm, model_grown_emits.
  - destruct Hres' as [->|(w' & -> & _ & Hchars)]; [done|].
    intros w ch. rewrite elem_of_union, elem_of_singleton.
    intros [->|Hin] Hch; [by apply Hm, Hchars|by eapply Hr].
Qed.

(** The model a run stops with is the model it started from, grown by
    empty tables only. *)
Lemma generate_loop_grown fuel count order st :
  model_grown (g_model st) (g_model (generate_loop draws fuel count order st).2).
Proof.
  apply (generate_loop_invariant draws
           (λ st', model_grown (g_model st) (g_model st'))); [|apply model_grown_refl].
  intros st0 e st' Hg _ Hit. apply iteration_spec in Hit as (Hgrown & _).
  by eapply model_grown_trans.
Qed.

End ResultFacts.

(** Claim C10 (no overshoot). Whenever [generate_words_from_markov] returns
    for a target count [N ≥ 0], the returned set has exactly [N] words: a
    round adds at most one word and the loop is left as soon as the set has
    [N] of them. *)
Theorem generate_exact_count (draws : nat → nat) (fuel : nat) (model : Model)
    (count order : Z) (st : gen_state) :
  0 ≤ count →
  generate_words_from_markov draws fuel model count order = (Returned, st) →
  Z.of_nat (size (g_results st)) = count.
Proof.
  intros Hcount Hrun. unfold generate_words_from_markov in Hrun.
  pose proof (generate_loop_returned draws _ _ _ _ _ Hrun) as Hge.
  pose proof (generate_loop_at_most draws fuel count order (GenState model ∅ 0))
    as Hle.
  rewrite Hrun in Hle. cbn [g_results snd] in Hle. rewrite size_empty in Hle.
  specialize (Hle Hcount). lia.
Qed.

Lemma generate_exact_count_witness :
  0 ≤ 1 ∧
  generate_words_from_markov (λ _, 0%nat) 1 (build_markov_chain ["bank"] 2) 1 2 =
  (Returned,
   GenState (<["nk" := []]> (build_markov_chain ["bank"] 2)) {["bank"]} 4) ∧
  Z.of_nat (size ({["bank"]} : gset string)) = 1.
Proof.
  assert (0 ≤ 1) as Hcount by lia.
  split; [exact Hcount|]. split; [exact generate_bank|].
  exact (generate_exact_count _ _ _ _ _ _ Hcount generate_bank).
Defined.

(** Claim C5 (length bounds). Every word of the set that
    [generate_words_from_markov] returns, and of the set it holds whenever
    it stops, has at least [MIN_WORD_LEN] and at most [MAX_SYNTH_LEN] = 20
    characters. *)
Theorem generated_length_bounds (draws : nat → nat) (fuel : nat) (model : Model)
    (count order : Z) (s : status) (st : gen_state) (w : string) :
  generate_words_from_markov draws fuel model count order = (s, st) →
  w ∈ g_results st →
  MIN_WORD_LEN ≤ PyStr.len w ≤ 20.
Proof.
  intros Hrun Hin. unfold generate_words_from_markov in Hrun.
  apply (generate_loop_lengths draws fuel count order (GenState model ∅ 0)).
  - intros w' Hw'. by apply elem_of_empty in Hw'.
  - by rewrite Hrun.
Qed.

Lemma generated_length_bounds_witness :
  generate_words_from_markov (λ _, 0%nat) 1 (build_markov_chain ["bank"] 2) 1 2 =
  (Returned,
   GenState (<["nk" := []]> (build_markov_chain ["bank"] 2)) {["bank"]} 4) ∧
  "bank" ∈ ({["bank"]} : gset string) ∧
  MIN_WORD_LEN ≤ PyStr.len "bank" ≤ 20.
Proof.
  assert ("bank" ∈ ({["bank"]} : gset string)) as Hin by (by apply elem_of_singleton).
  split; [exact generate_bank|]. split; [exact Hin|].
  exact (generated_length_bounds _ _ _ _ _ _ _ "bank" generate_bank Hin).
Defined.

(** Claim C7 (alphabet closure). Every word that
    [generate_words_from_markov] returns on a model built by
    [build_markov_chain] consists of characters that occur in some word of
    the seed corpus, whatever numbers the random generator draws. *)
Theorem generated_alphabet_closure (draws : nat → nat) (fuel : nat)
    (words : list string) (count order : Z) (s : status) (st : gen_state)
    (w : string) (ch : ascii) :
  generate_words_from_markov draws fuel (build_markov_chain words order)
    count order = (s, st) →
  w ∈ g_results st →
  ch ∈ PyStr.chars w →
  corpus_char words ch.
Proof.
  intros Hrun Hin Hch. unfold generate_words_from_markov in Hrun.
  apply (generate_loop_alphabet draws (corpus_char words) fuel count order
           (GenState (build_markov_chain words order) ∅ 0)) with (w := w).
  - intros c. apply build_emits.
  - intros w' c Hw'. by apply elem_of_empty in Hw'.
  - by rewrite Hrun.
  - done.
Qed.

Lemma generated_alphabet_closure_witness :
  generate_words_from_markov (λ _, 0%nat) 1 (build_markov_chain ["bank"] 2) 1 2 =
  (Returned,
   GenState (<["nk" := []]> (build_markov_chain ["bank"] 2)) {["bank"]} 4) ∧
  "bank" ∈ ({["bank"]} : gset string) ∧
  "n"%char ∈ PyStr.chars "bank" ∧
  corpus_char ["bank"] "n"%char.
Proof.
  assert ("bank" ∈ ({["bank"]} : gset string)) as Hin by (by apply elem_of_singleton).
  assert ("n"%char ∈ PyStr.chars "bank") as Hch by (vm_compute; repeat constructor).
  split; [exact generate_bank|]. split; [exact Hin|]. split; [exact Hch|].
  exact (generated_alphabet_closure _ _ _ _ _ _ _ "bank" "n"%char generate_bank Hin Hch).
Defined.

(** * The empty model *)

(** On the model of the empty corpus a target of one word is never met:
    no amount of rounds makes the generator return. *)
Lemma generate_empty_model_never_returns :
  ¬ ∃ fuel st,
      generate_words_from_markov (λ _, 0%nat) fuel (build_markov_chain [] 2) 1 2 =
      (Returned, st).
Proof.
  intros (fuel & st & Hrun). unfold generate_words_from_markov in Hrun.
  destruct (generate_loop_blank (λ _, 0%nat) fuel 1 2
              (GenState (build_markov_chain [] 2) ∅ 0)) as (model' & Hspin).
  - intros k c Hlook. cbn in Hlook. by rewrite lookup_empty in Hlook.
  - cbn [g_results]. rewrite size_empty. lia.
  - rewrite Hspin in Hrun. discriminate Hrun.
Qed.

(** Claim C1, amended. On the model built from the empty seed corpus (order
    2) the generator returns the empty set exactly when the target count is
    at most 0, which is the target [main] computes for an empty corpus. For
    a target of 1 or more the [while] loop does not end: after any number of
    rounds the set is still empty, no number has been drawn and the loop
    test still holds. *)
Theorem generate_empty_model (draws : nat → nat) (fuel : nat) (count : Z) :
  (generate_words_from_markov draws fuel (build_markov_chain [] 2) count 2).1 =
    (if 0 <? count then OutOfFuel else Returned) ∧
  g_results
    (generate_words_from_markov draws fuel (build_markov_chain [] 2) count 2).2 = ∅ ∧
  g_calls
    (generate_words_from_markov draws fuel (build_markov_chain [] 2) count 2).2 = 0%nat ∧
  main_expand draws fuel [] = (Returned, GenState ∅ ∅ 0).
Proof.
  assert (main_expand draws fuel [] = (Returned, GenState ∅ ∅ 0)) as Hmain.
  { unfold main_expand, generate_words_from_markov. apply generate_loop_met.
    unfold EXPANSION_MULTIPLIER. cbn [length]. lia. }
  unfold generate_words_from_markov.
  destruct (0 <? count) eqn:Hpos.
  - apply Z.ltb_lt in Hpos.
    destruct (generate_loop_blank draws fuel count 2
                (GenState (build_markov_chain [] 2) ∅ 0)) as (model' & ->).
    + intros k c Hlook. cbn in Hlook. by rewrite lookup_empty in Hlook.
    + cbn [g_results]. rewrite size_empty. lia.
    + by repeat split.
  - apply Z.ltb_ge in Hpos.
    rewrite generate_loop_met by (cbn [g_results]; rewrite size_empty; lia).
    by repeat split.
Qed.

(** * The model during generation *)

(** A run that hits a dead end stores the unseen prefix in the model, with
    an empty table: the model is changed and has a key without entries. *)
Lemma generation_stores_dead_ends :
  ∃ st,
    generate_words_from_markov (λ _, 0%nat) 1 (build_markov_chain ["bank"] 2) 1 2 =
    (Returned, st) ∧
    build_markov_chain ["bank"] 2 !! "nk" = None ∧
    g_model st !! "nk" = Some [] ∧
    ¬ model_positive (g_model st).
Proof.
  eexists. split; [exact generate_bank|]. cbn [g_model].
  split; [vm_compute; reflexivity|].
  split; [apply lookup_insert_eq|].
  intros Hpos. specialize (Hpos "nk" [] (lookup_insert_eq _ _ _)).
  by apply Exists_nil in Hpos.
Qed.

(** Claim C2, amended. After [build_markov_chain] every prefix key of the
    model has a next-character entry with count at least 1. Generation never
    changes or removes an entry of the model; what it does change is that a
    prefix it looks up and does not find is stored with an empty table (the
    [defaultdict] lookup), so at every stop of a run each prefix holds the
    table it had after the build, or an empty table if it had none. *)
Theorem model_after_build_and_generation (draws : nat → nat) (fuel : nat)
    (words : list string) (order count order' : Z) :
  model_positive (build_markov_chain words order) ∧
  model_grown (build_markov_chain words order)
    (g_model
       (generate_words_from_markov draws fuel (build_markov_chain words order)
          count order').2).
Proof.
  split; [apply build_positive|].
  apply (generate_loop_grown draws fuel count order'
           (GenState (build_markov_chain words order) ∅ 0)).
Qed.

(** * Parameters *)

(** A negative target count and an order of 0 are both accepted: the
    generator returns the empty set as an ordinary result, and the builder
    files every transition under the empty prefix. *)
Lemma invalid_parameters_are_accepted :
  generate_words_from_markov (λ _, 0%nat) 0 (build_markov_chain ["bank"] 2)
    (Z.of_nat (length ["bank"]) * -1) 2 =
  (Returned, GenState (build_markov_chain ["bank"] 2) ∅ 0) ∧
  build_markov_chain ["bank"] 0 =
  {[ "" := [("b"%char, 1%nat); ("a"%char, 1%nat); ("n"%char, 1%nat);
            ("k"%char, 1%nat)] ]}.
Proof. split; vm_compute; reflexivity. Qed.

(** Claim C3, amended. The engine checks no parameter and has no
    configuration error. An order below 1 is accepted by
    [build_markov_chain], which still records one count per character of
    each word and leaves every prefix with a positive entry; a target count
    below 0 (a negative multiplier) makes [generate_words_from_markov]
    return the empty set at once, as an ordinary result, without a draw;
    [MIN_WORD_LEN] = 4 and the synthesis cap 20 are fixed, so a minimum
    above the cap does not arise. *)
Theorem no_parameter_check (draws : nat → nat) (fuel : nat)
    (words : list string) (model : Model) (order count : Z) :
  (order < 1 →
     model_total (build_markov_chain words order) = corpus_len words ∧
     model_positive (build_markov_chain words order)) ∧
  (count < 0 →
     generate_words_from_markov draws fuel model count order =
     (Returned, GenState model ∅ 0)) ∧
  MIN_WORD_LEN ≤ Z.of_nat MAX_SYNTH_LEN.
Proof.
  split; [|split].
  - intros _. split; [apply build_total|apply build_positive].
  - intros Hneg. unfold generate_words_from_markov. apply generate_loop_met. lia.
  - unfold MIN_WORD_LEN, MAX_SYNTH_LEN. lia.
Qed.

Lemma no_parameter_check_witness :
  (0 < 1 ∧ -30 < 0) ∧
  model_total (build_markov_chain ["bank"] 0) = corpus_len ["bank"] ∧
  generate_words_from_markov (λ _, 0%nat) 5 (build_markov_chain ["bank"] 2) (-30) 0 =
  (Returned, GenState (build_markov_chain ["bank"] 2) ∅ 0).
Proof.
  assert (0 < 1) as Horder by lia.
  assert (-30 < 0) as Hcount by lia.
  destruct (no_parameter_check (λ _, 0%nat) 5 ["bank"]
              (build_markov_chain ["bank"] 2) 0 (-30)) as (Hbuild & Hgen & _).
  split; [by split|].
  split; [apply (Hbuild Horder)|apply (Hgen Hcount)].
Defined.

(** * Strings as lists of characters *)

Section CharsFacts.

Lemma chars_length s : length (PyStr.chars s) = String.length s.
Proof. unfold PyStr.chars. induction s as [|a s IH]; simpl; [done|]. by rewrite IH. Qed.

Lemma chars_append s1 s2 :
  PyStr.chars (s1 ++ s2) = (PyStr.chars s1 ++ PyStr.chars s2)%list.
Proof.
  unfold PyStr.chars. induction s1 as [|a s1 IH]; [done|].
  change (a :: list_ascii_of_string (s1 ++ s2) =
          a :: (list_ascii_of_string s1 ++ list_ascii_of_string s2)%list).
  by rewrite IH.
Qed.

Lemma chars_inj s1 s2 : PyStr.chars s1 = PyStr.chars s2 → s1 = s2.
Proof.
  unfold PyStr.chars. intros Heq.
  rewrite <- (string_of_list_ascii_of_string s1), Heq.
  apply string_of_list_ascii_of_string.
Qed.

Lemma chars_repeat ch n :
  PyStr.chars (PyStr.repeat ch n) = List.repeat ch (Z.to_nat n).
Proof. apply list_ascii_of_string_of_list_ascii. Qed.

Lemma tildes_length ch n : String.length (PyStr.repeat ch n) = Z.to_nat n.
Proof. by rewrite <- chars_length, chars_repeat, List.repeat_length. Qed.

Lemma chars_tail s : PyStr.chars (PyStr.tail s) = drop 1 (PyStr.chars s).
Proof. by destruct s. Qed.

Lemma chars_substring s : ∀ a n,
  PyStr.chars (substring a n s) = take n (drop a (PyStr.chars s)).
Proof.
  unfold PyStr.chars. induction s as [|c s IH]; intros a n.
  - destruct a, n; simpl; by rewrite ?take_nil.
  - destruct a as [|a].
    + destruct n as [|n]; [done|].
      change (c :: list_ascii_of_string (substring 0 n s) =
              c :: take n (list_ascii_of_string s)).
      by rewrite IH.
    + apply IH.
Qed.

Lemma append_length s1 s2 :
  String.length (s1 ++ s2) = (String.length s1 + String.length s2)%nat.
Proof. by rewrite <- !chars_length, chars_append, length_app. Qed.

Lemma chars_last_chars n s :
  PyStr.chars (last_chars n s) = drop (String.length s - n) (PyStr.chars s).
Proof.
  unfold last_chars. rewrite chars_substring.
  apply take_ge. rewrite length_drop, chars_length. lia.
Qed.

Lemma last_chars_length n s : (n ≤ String.length s)%nat → String.length (last_chars n s) = n.
Proof.
  intros Hle. rewrite <- chars_length, chars_last_chars, length_drop, chars_length. lia.
Qed.

(** [s[a:b]] for bounds inside the string. *)
Lemma chars_slice s (a b : nat) :
  (a ≤ b ≤ String.length s)%nat →
  PyStr.chars (PyStr.slice s (Z.of_nat a) (Z.of_nat b)) =
  take (b - a) (drop a (PyStr.chars s)).
Proof.
  intros Hab. unfold PyStr.slice, PyStr.bound.
  destruct (Z.ltb_spec (Z.of_nat a) 0); [lia|].
  destruct (Z.ltb_spec (Z.of_nat b) 0); [lia|].
  rewrite !Z.min_l, !Nat2Z.id by lia. apply chars_substring.
Qed.

End CharsFacts.

(** * Counts of the built model *)

Section CountFacts.

Implicit Types (model : Model) (prefix : string) (ch : ascii).

Lemma counter_get_incr (c : Counter) k ch :
  counter_get (PyCounter.incr c k) ch =
  (counter_get c ch + if decide (k = ch) then 1 else 0)%nat.
Proof.
  induction c as [|[k' n] c IH]; simpl.
  - destruct (decide (k = ch)); simpl; lia.
  - destruct (decide (k' = k)) as [->|Hne]; simpl.
    + destruct (decide (k = ch)); lia.
    + rewrite IH. destruct (decide (k' = ch)) as [->|]; [|lia].
      rewrite decide_False by done. lia.
Qed.

Lemma model_count_dd_incr model p k prefix ch :
  model_count (dd_incr model p k) prefix ch =
  (model_count model prefix ch + if decide (p = prefix ∧ k = ch) then 1 else 0)%nat.
Proof.
  unfold model_count. rewrite dd_incr_insert, lookup_insert.
  destruct (decide (p = prefix)) as [->|Hne]; simpl.
  - rewrite counter_get_incr.
    destruct (decide (k = ch)) as [->|Hk].
    + by rewrite decide_True.
    + rewrite decide_False by tauto. done.
  - rewrite decide_False by tauto. lia.
Qed.

Lemma model_count_empty prefix ch : model_count ∅ prefix ch = 0%nat.
Proof. unfold model_count. by rewrite lookup_empty. Qed.

Lemma build_word_from_count padded order rest : ∀ i model prefix ch,
  model_count (build_word_from padded order i rest model) prefix ch =
  (model_count model prefix ch + slice_count padded order i rest prefix ch)%nat.
Proof.
  induction rest as [|c rest IH]; intros i model prefix ch; simpl; [lia|].
  rewrite IH, model_count_dd_incr. lia.
Qed.

(** The counts one word adds do not depend on the model it is added to. *)
Lemma build_word_count order model word prefix ch :
  model_count (build_word order model word) prefix ch =
  (model_count model prefix ch + model_count (build_word order ∅ word) prefix ch)%nat.
Proof.
  rewrite !build_word_unfold, !build_word_from_count, model_count_empty. lia.
Qed.

Lemma build_fold_count order words : ∀ model prefix ch,
  model_count (fold_left (build_word order) words model) prefix ch =
  (model_count model prefix ch +
   sum_list ((λ w, model_count (build_word order ∅ w) prefix ch) <$> words))%nat.
Proof.
  induction words as [|w words IH]; intros model prefix ch; csimpl; [lia|].
  rewrite IH, build_word_count. lia.
Qed.

Lemma build_count_sum order words prefix ch :
  model_count (build_markov_chain words order) prefix ch =
  sum_list ((λ w, model_count (build_word order ∅ w) prefix ch) <$> words).
Proof.
  unfold build_markov_chain. by rewrite build_fold_count, model_count_empty.
Qed.

(** The prefix the loop takes at index [len(seen)] is the context of the
    character that follows [seen]. *)
Lemma slice_is_context (n : nat) seen rest :
  PyStr.slice (PyStr.repeat "~"%char (Z.of_nat n) ++ seen ++ rest)
    (Z.of_nat (String.length seen)) (Z.of_nat (String.length seen) + Z.of_nat n) =
  context n seen.
Proof.
  apply chars_inj. rewrite <- Nat2Z.inj_add.
  rewrite chars_slice
    by (rewrite !append_length, tildes_length, Nat2Z.id; lia).
  unfold context. rewrite chars_last_chars, !chars_append, chars_repeat.
  rewrite append_length, tildes_length, Nat2Z.id.
  replace (String.length seen + n - String.length seen)%nat with n by lia.
  replace (n + String.length seen - n)%nat with (String.length seen) by lia.
  rewrite (assoc_L (++)%list).
  rewrite drop_app_le by (rewrite length_app, List.repeat_length, chars_length; lia).
  apply take_app_length'.
  rewrite length_drop, length_app, List.repeat_length, chars_length. lia.
Qed.

Lemma slice_count_context (n : nat) rest : ∀ seen prefix ch,
  slice_count (PyStr.repeat "~"%char (Z.of_nat n) ++ seen ++ rest) (Z.of_nat n)
    (String.length seen) rest prefix ch =
  context_count n seen rest prefix ch.
Proof.
  induction rest as [|c rest IH]; intros seen prefix ch; [done|].
  cbn [slice_count context_count]. rewrite slice_is_context.
  rewrite <- (snoc_append seen c rest), <- (snoc_length seen c). by rewrite IH.
Qed.

Lemma build_word_context (n : nat) word prefix ch :
  model_count (build_word (Z.of_nat n) ∅ word) prefix ch =
  context_count n EmptyString word prefix ch.
Proof.
  rewrite build_word_unfold, build_word_from_count, model_count_empty.
  apply (slice_count_context n word EmptyString).
Qed.

End CountFacts.

Section ContextFacts.

Lemma context_length n seen : String.length (context n seen) = n.
Proof.
  unfold context. apply last_chars_length.
  rewrite append_length, tildes_length, Nat2Z.id. lia.
Qed.

(** A character that follows [pre] in the text is counted under the context
    of [pre]. *)
Lemma context_count_split n pre ch post : ∀ seen,
  (1 ≤ context_count n seen (pre ++ String ch post) (context n (seen ++ pre)) ch)%nat.
Proof.
  induction pre as [|c pre IH]; intros seen.
  - replace (seen ++ EmptyString) with seen
      by (apply chars_inj; by rewrite chars_append, app_nil_r).
    change (EmptyString ++ String ch post) with (String ch post).
    cbn [context_count]. rewrite decide_True by done. lia.
  - change (String c pre ++ String ch post) with (String c (pre ++ String ch post)).
    cbn [context_count]. rewrite <- (snoc_append seen c pre).
    pose proof (IH (PyStr.snoc seen c)). lia.
Qed.

(** Every count comes from a character of the text in that context. *)
Lemma context_count_inv n rest prefix ch : ∀ seen,
  (1 ≤ context_count n seen rest prefix ch)%nat →
  ∃ pre post, rest = pre ++ String ch post ∧ prefix = context n (seen ++ pre).
Proof.
  induction rest as [|c rest IH]; intros seen; cbn [context_count]; [lia|].
  destruct (decide (context n seen = prefix ∧ c = ch)) as [[Hp ->]|_].
  - intros _. exists EmptyString, rest. split; [done|].
    rewrite <- Hp. f_equal. apply chars_inj. by rewrite chars_append, app_nil_r.
  - intros Hcount. destruct (IH (PyStr.snoc seen c)) as (pre & post & -> & ->); [lia|].
    exists (String c pre), post. split; [done|]. by rewrite snoc_append.
Qed.

Lemma sum_list_pos {A} (f : A → nat) (l : list A) :
  (1 ≤ sum_list (f <$> l))%nat ↔ ∃ x, x ∈ l ∧ (1 ≤ f x)%nat.
Proof.
  induction l as [|a l IH]; csimpl.
  - split; [lia|]. intros (x & Hx & _). by apply elem_of_nil in Hx.
  - split.
    + intros Hsum. destruct (decide (1 ≤ f a)%nat) as [Ha|Ha].
      * exists a. split; [apply list_elem_of_here|done].
      * destruct (proj1 IH) as (x & Hx & Hfx); [lia|].
        exists x. split; [by apply list_elem_of_further|done].
    + intros (x & Hx & Hfx). apply elem_of_cons in Hx as [->|Hx]; [lia|].
      assert (1 ≤ sum_list (f <$> l))%nat by (apply IH; eauto). lia.
Qed.

End ContextFacts.

Section WellFormedFacts.

Implicit Types (c : Counter) (model : Model).

Lemma incr_wf c ch :
  NoDup (PyCounter.keys c) → Forall (λ e, (1 ≤ e.2)%nat) c →
  counter_wf (PyCounter.incr c ch).
Proof.
  intros Hnd Hpos. split; [|split].
  - induction c as [|[k n] c IH]; csimpl.
    + apply NoDup_singleton.
    + apply NoDup_cons in Hnd as [Hk Hnd]. apply Forall_cons in Hpos as [_ Hpos].
      case_decide; csimpl; apply NoDup_cons.
      * done.
      * split; [|by apply IH]. rewrite incr_keys. intros [->|Hin]; done.
  - induction c as [|[k n] c IH]; simpl.
    + apply Forall_singleton. simpl. lia.
    + apply Forall_cons in Hpos as [Hn Hpos]. apply NoDup_cons in Hnd as [_ Hnd].
      case_decide; apply Forall_cons; simpl in *; split; auto with lia.
  - destruct c as [|[k n] c]; simpl; [done|]. by case_decide.
Qed.

Lemma dd_incr_wf model prefix ch : model_wf model → model_wf (dd_incr model prefix ch).
Proof.
  intros Hwf p c. rewrite dd_incr_insert, lookup_insert.
  case_decide as Heq; [|apply Hwf].
  intros [= <-]. destruct (model !! prefix) as [c0|] eqn:Hlook.
  - destruct (Hwf _ _ Hlook) as (Hnd & Hpos & _). by apply incr_wf.
  - apply (incr_wf [] ch); [apply NoDup_nil_2|apply Forall_nil_2].
Qed.

Lemma build_word_from_wf padded order rest : ∀ i model,
  model_wf model → model_wf (build_word_from padded order i rest model).
Proof.
  induction rest as [|ch rest IH]; intros i model Hwf; simpl; [done|].
  by apply IH, dd_incr_wf.
Qed.

Lemma build_wf words order : model_wf (build_markov_chain words order).
Proof.
  unfold build_markov_chain.
  assert (model_wf (∅ : Model)) as Hwf
    by (intros p c Hlook; by rewrite lookup_empty in Hlook).
  revert Hwf. generalize (∅ : Model) as model.
  induction words as [|w words IH]; intros model Hwf; simpl; [done|].
  apply IH. rewrite build_word_unfold. by apply build_word_from_wf.
Qed.

(** In a well-formed table the entries are the positive reads. *)
Lemma counter_wf_elem c k n :
  NoDup (PyCounter.keys c) → Forall (λ e, (1 ≤ e.2)%nat) c →
  (k, n) ∈ c ↔ counter_get c k = n ∧ (1 ≤ n)%nat.
Proof.
  intros Hnd Hpos. induction c as [|[k' n'] c IH]; simpl.
  - rewrite elem_of_nil. lia.
  - apply NoDup_cons in Hnd as [Hk Hnd]. apply Forall_cons in Hpos as [Hn Hpos].
    simpl in Hn. rewrite elem_of_cons, (IH Hnd Hpos).
    destruct (decide (k' = k)) as [->|Hne].
    + split.
      * intros [[= <-]|[Hget Hpos']]; [done|].
        exfalso. apply Hk. clear -Hget Hpos'.
        induction c as [|[k1 n1] c IH]; simpl in *; [lia|].
        case_decide; [subst; apply list_elem_of_here|].
        apply list_elem_of_further, IH; done.
      * intros [<- _]. by left.
    + split.
      * intros [[= -> ->]|H]; done.
      * intros H. by right.
Qed.

Lemma counter_wf_perm c c' :
  counter_wf c → counter_wf c' →
  (∀ ch, counter_get c ch = counter_get c' ch) → c ≡ₚ c'.
Proof.
  intros (Hnd & Hpos & _) (Hnd' & Hpos' & _) Hget.
  apply NoDup_Permutation.
  - by eapply NoDup_fmap_1.
  - by eapply NoDup_fmap_1.
  - intros [k n]. rewrite !counter_wf_elem by done. by rewrite Hget.
Qed.

Lemma counter_wf_get c : counter_wf c → ∃ ch, (1 ≤ counter_get c ch)%nat.
Proof.
  intros (Hnd & Hpos & Hne). destruct c as [|[k n] c]; [done|].
  exists k. simpl. rewrite decide_True by done.
  apply Forall_cons in Hpos as [Hn _]. done.
Qed.

(** Well-formed models with the same counts are the same dictionary. *)
Lemma model_wf_same_tables model model' :
  model_wf model → model_wf model' →
  (∀ prefix ch, model_count model prefix ch = model_count model' prefix ch) →
  same_tables model model'.
Proof.
  intros Hwf Hwf' Hcount prefix. specialize (Hcount prefix). unfold model_count in Hcount.
  destruct (model !! prefix) as [c|] eqn:Hc, (model' !! prefix) as [c'|] eqn:Hc';
    simpl in Hcount.
  - constructor. apply counter_wf_perm; eauto.
  - destruct (counter_wf_get c) as (ch & Hch); [eauto|].
    rewrite Hcount in Hch. simpl in Hch. lia.
  - destruct (counter_wf_get c') as (ch & Hch); [eauto|].
    rewrite <- Hcount in Hch. simpl in Hch. lia.
  - constructor.
Qed.

End WellFormedFacts.

Section BuildCountFacts.

Implicit Types (words : list string) (order : Z) (prefix : string) (ch : ascii).

Lemma build_count_context words order prefix ch :
  0 ≤ order →
  model_count (build_markov_chain words order) prefix ch =
  corpus_count (Z.to_nat order) words prefix ch.
Proof.
  intros Horder. rewrite build_count_sum. unfold corpus_count.
  f_equal. apply list_fmap_ext. intros _ w _.
  rewrite <- build_word_context. by rewrite Z2Nat.id.
Qed.

Lemma counter_get_pos_keys (c : Counter) ch :
  (1 ≤ counter_get c ch)%nat → ch ∈ PyCounter.keys c.
Proof.
  induction c as [|[k n] c IH]; simpl; [lia|].
  case_decide as Hk; [subst; intros _; apply list_elem_of_here|].
  intros Hget. apply list_elem_of_further. by apply IH.
Qed.

Lemma model_count_emits (model : Model) prefix ch :
  (1 ≤ model_count model prefix ch)%nat → model_emits model ch.
Proof.
  unfold model_count. intros Hcount.
  destruct (model !! prefix) as [c|] eqn:Hlook; simpl in Hcount; [|lia].
  exists prefix, c. split; [done|]. by apply counter_get_pos_keys.
Qed.

(** Every character of the rest of the word is counted under the prefix
    taken at its index. *)
Lemma slice_count_covers padded order rest ch : ∀ i,
  ch ∈ PyStr.chars rest → ∃ prefix, (1 ≤ slice_count padded order i rest prefix ch)%nat.
Proof.
  unfold PyStr.chars. induction rest as [|c rest IH]; intros i; simpl.
  - intros Hin. by apply elem_of_nil in Hin.
  - intros Hin. apply elem_of_cons in Hin as [->|Hin].
    + eexists. rewrite decide_True by done. lia.
    + destruct (IH (S i) Hin) as (prefix & Hp). exists prefix. lia.
Qed.

Lemma build_covers words order w ch :
  w ∈ words → ch ∈ PyStr.chars w → model_emits (build_markov_chain words order) ch.
Proof.
  intros Hw Hch.
  destruct (slice_count_covers (PyStr.repeat "~"%char order ++ w) order w ch 0 Hch)
    as (prefix & Hcount).
  apply (model_count_emits _ prefix). rewrite build_count_sum.
  apply sum_list_pos. exists w. split; [done|].
  by rewrite build_word_unfold, build_word_from_count, model_count_empty.
Qed.

Lemma build_count_pos_iff words order prefix ch :
  0 ≤ order →
  (1 ≤ model_count (build_markov_chain words order) prefix ch)%nat ↔
  ∃ pre post,
    (pre ++ String ch post) ∈ words ∧ prefix = context (Z.to_nat order) pre.
Proof.
  intros Horder. rewrite build_count_context by done.
  unfold corpus_count. rewrite sum_list_pos. split.
  - intros (w & Hw & Hcount).
    apply context_count_inv in Hcount as (pre & post & -> & ->). by exists pre, post.
  - intros (pre & post & Hw & ->). eexists. split; [exact Hw|].
    apply (context_count_split _ pre ch post EmptyString).
Qed.

Lemma build_key_length words order prefix :
  0 ≤ order →
  is_Some (build_markov_chain words order !! prefix) →
  PyStr.len prefix = order.
Proof.
  intros Horder [c Hlook].
  destruct (counter_wf_get c) as (ch & Hch); [by eapply build_wf|].
  assert (1 ≤ model_count (build_markov_chain words order) prefix ch)%nat as Hcount
    by (unfold model_count; by rewrite Hlook).
  apply build_count_pos_iff in Hcount as (pre & post & _ & ->); [|done].
  unfold PyStr.len. rewrite context_length. lia.
Qed.

End BuildCountFacts.

(** * More on the model builder *)

(** Property X1 (what the counts count). For an order of at least 0, the
    count the built model holds for a character [ch] under a prefix is the
    number of places in the seed words where [ch] stands right after that
    prefix, the prefix being the last [order] characters of the
    sentinel-padded text before the place. *)
Theorem build_counts_contexts (words : list string) (order : Z)
    (prefix : string) (ch : ascii) :
  0 ≤ order →
  model_count (build_markov_chain words order) prefix ch =
  corpus_count (Z.to_nat order) words prefix ch.
Proof. apply build_count_context. Qed.

Lemma build_counts_contexts_witness :
  0 ≤ 2 ∧
  model_count (build_markov_chain ["bank"; "rank"; "tank"; "band"] 2) "an" "k" =
  corpus_count 2 ["bank"; "rank"; "tank"; "band"] "an" "k".
Proof. split; [lia | apply (build_counts_contexts _ 2); lia]. Defined.

(** Property X2 (the visiting order of the seed set does not matter). Two
    runs of [build_markov_chain] that visit the same seed words in different
    orders return the same dictionary: the same prefixes, each with the same
    next-character counts; only the insertion order of the entries of a
    table can differ. *)
Theorem build_order_independent (words words' : list string) (order : Z) :
  words ≡ₚ words' →
  same_tables (build_markov_chain words order) (build_markov_chain words' order).
Proof.
  intros Hperm. apply model_wf_same_tables; [apply build_wf..|].
  intros prefix ch. rewrite !build_count_sum. by rewrite Hperm.
Qed.

Lemma build_order_independent_witness :
  ["bank"; "rank"; "tank"] ≡ₚ ["tank"; "bank"; "rank"] ∧
  same_tables (build_markov_chain ["bank"; "rank"; "tank"] 2)
              (build_markov_chain ["tank"; "bank"; "rank"] 2).
Proof.
  assert (["bank"; "rank"; "tank"] ≡ₚ ["tank"; "bank"; "rank"]) as Hperm.
  { apply permutations_Permutation. vm_compute. repeat constructor. }
  split; [exact Hperm | apply (build_order_independent _ _ 2 Hperm)].
Defined.

(** Property X3 (corpora add up). The count of every (prefix,
    next-character) pair in the model of two corpora visited one after the
    other is the sum of its counts in the models of each corpus. *)
Theorem build_concat_adds (words1 words2 : list string) (order : Z)
    (prefix : string) (ch : ascii) :
  model_count (build_markov_chain (words1 ++ words2) order) prefix ch =
  (model_count (build_markov_chain words1 order) prefix ch +
   model_count (build_markov_chain words2 order) prefix ch)%nat.
Proof. rewrite !build_count_sum, fmap_app. apply sum_list_with_app. Qed.

(** Property X4 (the alphabet of the model). The characters that occur as
    next-character keys in the built model are exactly the characters of
    the seed words: none is missing and none is added. *)
Theorem build_alphabet_exact (words : list string) (order : Z) (ch : ascii) :
  model_emits (build_markov_chain words order) ch ↔ corpus_char words ch.
Proof.
  split; [apply build_emits|].
  intros (w & Hw & Hch). by eapply build_covers.
Qed.

(** Property X5 (prefix keys). For an order of at least 0 every prefix key
    of the built model is exactly [order] characters long. *)
Theorem build_keys_have_order_length (words : list string) (order : Z)
    (prefix : string) :
  0 ≤ order →
  is_Some (build_markov_chain words order !! prefix) →
  PyStr.len prefix = order.
Proof. apply build_key_length. Qed.

Lemma build_keys_have_order_length_witness :
  0 ≤ 2 ∧
  is_Some (build_markov_chain ["bank"; "rank"] 2 !! "~b") ∧
  PyStr.len "~b" = 2.
Proof.
  assert (0 ≤ 2) as Horder by lia.
  assert (is_Some (build_markov_chain ["bank"; "rank"] 2 !! "~b")) as Hkey
    by (vm_compute; eauto).
  split; [exact Horder|]. split; [exact Hkey|].
  exact (build_keys_have_order_length _ 2 "~b" Horder Hkey).
Defined.

(** Property X6 (which transitions the model has). For an order of at least
    0, the built model has a count of at least 1 for [ch] under a prefix
    exactly when some seed word has [ch] right after that prefix: the word
    splits as [pre + ch + post] and the prefix is the last [order]
    characters of the sentinel padding followed by [pre]. *)
Theorem build_transitions_are_corpus_contexts (words : list string) (order : Z)
    (prefix : string) (ch : ascii) :
  0 ≤ order →
  (1 ≤ model_count (build_markov_chain words order) prefix ch)%nat ↔
  ∃ pre post,
    (pre ++ String ch post) ∈ words ∧ prefix = context (Z.to_nat order) pre.
Proof. apply build_count_pos_iff. Qed.

Lemma build_transitions_are_corpus_contexts_witness :
  0 ≤ 2 ∧
  ((1 ≤ model_count (build_markov_chain ["bank"; "rank"] 2) "an" "k")%nat ↔
   ∃ pre post, (pre ++ String "k" post) ∈ ["bank"; "rank"] ∧ "an" = context 2 pre).
Proof.
  split; [lia | apply (build_transitions_are_corpus_contexts _ 2); lia].
Defined.

(** * Walks of the generator *)

Section WalkFacts.

Variable draws : nat → nat.

Implicit Types (model : Model) (prefix word : string).

Lemma append_empty_r s : s ++ EmptyString = s.
Proof. apply chars_inj. by rewrite chars_append, app_nil_r. Qed.

(** Growing a model by empty tables changes no lookup result. *)
Lemma model_grown_default model model' prefix :
  model_grown model model' →
  default [] (model' !! prefix) = default [] (model !! prefix).
Proof. intros Hg. by destruct (Hg prefix) as [->|[-> ->]]. Qed.

Lemma model_grown_walk model model' word : ∀ prefix,
  model_grown model model' → walk model' prefix word → walk model prefix word.
Proof.
  induction word as [|ch word IH]; intros prefix Hg; simpl; [done|].
  intros [Hoff Hwalk]. split; [|by apply IH].
  unfold model_offers in *. by rewrite <- (model_grown_default model model').
Qed.

Lemma model_grown_dead_end model model' prefix :
  model_grown model model' → dead_end model' prefix → dead_end model prefix.
Proof. unfold dead_end. intros Hg. by rewrite (model_grown_default model model'). Qed.

(** What the inner loop appends is a walk from the prefix it starts with,
    and the loop leaves early only at a dead end. *)
Lemma synth_walk n : ∀ model calls prefix word w model' calls',
  synth draws n model calls prefix word = (inr w, model', calls') →
  ∃ suffix,
    w = word ++ suffix ∧ walk model prefix suffix ∧
    (calls' ≤ calls + n)%nat ∧
    (String.length suffix = n ∨ dead_end model (slide prefix suffix)).
Proof.
  induction n as [|n IH]; intros model calls prefix word w model' calls'; simpl.
  - intros [= <- <- <-]. exists EmptyString. rewrite append_empty_r.
    repeat split; [lia|by left].
  - destruct (dd_getitem model prefix) as [c model1] eqn:Hget.
    apply dd_getitem_spec in Hget as [Hc Hgrown].
    destruct c as [|e c].
    { intros [= <- <- <-]. exists EmptyString. rewrite append_empty_r.
      repeat split; [lia|]. right. by unfold dead_end. }
    destruct (PyRandom.choices (e :: c) (draws calls)) as [err|ch] eqn:Hch; [done|].
    intros Hsynth. apply IH in Hsynth as (suffix & -> & Hwalk & Hcalls & Hend).
    exists (String ch suffix). rewrite snoc_append. split; [done|].
    split; [|split; [lia|]].
    + split; [|by eapply model_grown_walk].
      unfold model_offers. rewrite <- Hc. by apply choices_in in Hch.
    + destruct Hend as [Hlen|Hdead]; [left; simpl; lia|right].
      by eapply model_grown_dead_end.
Qed.

Lemma synth_calls n : ∀ model calls prefix word r model' calls',
  synth draws n model calls prefix word = (r, model', calls') →
  (calls' ≤ calls + n)%nat.
Proof.
  induction n as [|n IH]; intros model calls prefix word r model' calls'; simpl.
  - intros [= <- <- <-]. lia.
  - destruct (dd_getitem model prefix) as [c model1].
    destruct c as [|e c]; [intros [= <- <- <-]; lia|].
    destruct (PyRandom.choices (e :: c) (draws calls)) as [err|ch].
    + intros [= <- <- <-]. lia.
    + intros Hsynth. apply IH in Hsynth. lia.
Qed.

(** One round of the [while] loop adds nothing, or a maximal walk. *)
Lemma iteration_walk order st e st' :
  iteration draws order st = (e, st') →
  g_results st' = g_results st ∨
  ∃ w, g_results st' = {[w]} ∪ g_results st ∧
       MIN_WORD_LEN ≤ PyStr.len w ∧
       walk (g_model st) (PyStr.repeat "~"%char order) w ∧
       (String.length w = MAX_SYNTH_LEN ∨
        dead_end (g_model st) (slide (PyStr.repeat "~"%char order) w)).
Proof.
  unfold iteration.
  destruct (synth _ _ _ _ _ _) as [[r model'] calls'] eqn:Hsynth.
  destruct r as [err|w]; [intros [= <- <-]; by left|].
  apply synth_walk in Hsynth as (suffix & -> & Hwalk & _ & Hend).
  change (EmptyString ++ suffix) with suffix.
  destruct (MIN_WORD_LEN <=? PyStr.len suffix) eqn:Hmin; intros [= <- <-]; simpl;
    [|by left].
  right. exists suffix. apply Z.leb_le in Hmin. done.
Qed.

(** A property of words that holds for every maximal walk through the model
    the run started from holds for every word of the result set. *)
Lemma generate_loop_walks (Q : string → Prop) model fuel count order :
  (∀ w, MIN_WORD_LEN ≤ PyStr.len w →
        walk model (PyStr.repeat "~"%char order) w →
        (String.length w = MAX_SYNTH_LEN ∨
         dead_end model (slide (PyStr.repeat "~"%char order) w)) →
        Q w) →
  ∀ w, w ∈ g_results (generate_loop draws fuel count order (GenState model ∅ 0)).2 →
       Q w.
Proof.
  intros HQ.
  assert (model_grown model (g_model (GenState model ∅ 0)) ∧
          ∀ w, w ∈ g_results (GenState model ∅ 0) → Q w) as Hinit.
  { split; [apply model_grown_refl|]. intros w Hw. by apply elem_of_empty in Hw. }
  revert Hinit.
  generalize (GenState model ∅ 0) as st0. intros st0 Hinit.
  apply (generate_loop_invariant draws
           (λ st, model_grown model (g_model st) ∧ ∀ w, w ∈ g_results st → Q w)
           count order); [|done].
  clear st0 Hinit. intros st e st' [Hg Hres] _ Hit. split.
  - apply iteration_spec in Hit as (Hg' & _). by eapply model_grown_trans.
  - apply iteration_walk in Hit as [->|(w' & -> & Hmin & Hwalk & Hend)]; [done|].
    intros w. rewrite elem_of_union, elem_of_singleton.
    intros [->|Hin]; [|by apply Hres].
    apply HQ; [done|by eapply model_grown_walk|].
    destruct Hend as [Hlen|Hdead]; [by left|right]. by eapply model_grown_dead_end.
Qed.

(** The set and the number of sampler calls grow by at most one word and
    [MAX_SYNTH_LEN] calls a round. *)
Lemma generate_loop_budget fuel count order : ∀ st,
  (size (g_results (generate_loop draws fuel count order st).2) ≤
     size (g_results st) + fuel)%nat ∧
  (g_calls (generate_loop draws fuel count order st).2 ≤
     g_calls st + MAX_SYNTH_LEN * fuel)%nat.
Proof.
  induction fuel as [|fuel IH]; intros st; simpl.
  - destruct (_ <? count); simpl; lia.
  - destruct (_ <? count); [|simpl; lia].
    destruct (iteration draws order st) as [e st'] eqn:Hit.
    assert ((size (g_results st') ≤ S (size (g_results st)))%nat ∧
            (g_calls st' ≤ g_calls st + MAX_SYNTH_LEN)%nat) as [Hsize Hcalls].
    { split.
      - apply iteration_spec in Hit as (_ & _ & [->|(w & -> & _)]); [lia|].
        apply size_add_word.
      - unfold iteration in Hit.
        destruct (synth _ _ _ _ _ _) as [[r model'] calls'] eqn:Hsynth.
        apply synth_calls in Hsynth.
        destruct r; [|destruct (_ <=? _)]; injection Hit as <- <-; simpl; lia. }
    destruct (IH st') as [IH1 IH2]. unfold MAX_SYNTH_LEN in *.
    destruct e as [e|]; simpl; lia.
Qed.

End WalkFacts.

Section SlideFacts.

Implicit Types (model : Model) (prefix word : string).

Lemma context_empty n : context n EmptyString = PyStr.repeat "~"%char (Z.of_nat n).
Proof.
  apply chars_inj. unfold context.
  rewrite chars_last_chars, append_empty_r, tildes_length, Nat2Z.id.
  by replace (n - n)%nat with 0%nat by lia.
Qed.

(** For an order of at least 1 the prefix the generator slides along is the
    context of the next character. *)
Lemma slide_step n seen c :
  (1 ≤ n)%nat →
  PyStr.snoc (PyStr.tail (context n seen)) c = context n (PyStr.snoc seen c).
Proof.
  intros Hn. apply chars_inj. unfold context.
  rewrite snoc_chars, chars_tail, !chars_last_chars, !append_length, snoc_length,
    tildes_length, Nat2Z.id, !chars_append, snoc_chars, chars_repeat, Nat2Z.id.
  rewrite drop_drop.
  replace (n + String.length seen - n + 1)%nat with (S (String.length seen)) by lia.
  replace (n + S (String.length seen) - n)%nat with (S (String.length seen)) by lia.
  rewrite (assoc_L (++)%list).
  symmetry. apply drop_app_le.
  rewrite length_app, List.repeat_length, chars_length. lia.
Qed.

Lemma slide_context n word : ∀ seen,
  (1 ≤ n)%nat → slide (context n seen) word = context n (seen ++ word).
Proof.
  induction word as [|c word IH]; intros seen Hn; simpl.
  - by rewrite append_empty_r.
  - rewrite slide_step by done. rewrite IH by done. by rewrite snoc_append.
Qed.

Lemma walk_split model pre ch post : ∀ prefix,
  walk model prefix (pre ++ String ch post) → model_offers model (slide prefix pre) ch.
Proof.
  induction pre as [|c pre IH]; intros prefix.
  - by intros [Hoff _].
  - intros [_ Hwalk]. by apply IH.
Qed.

Lemma counter_keys_get (c : Counter) ch :
  Forall (λ e, (1 ≤ e.2)%nat) c → ch ∈ PyCounter.keys c → (1 ≤ counter_get c ch)%nat.
Proof.
  intros Hpos. induction c as [|[k n] c IH]; csimpl.
  - intros Hin. by apply elem_of_nil in Hin.
  - apply Forall_cons in Hpos as [Hn Hpos]. case_decide as Hk; [done|].
    intros Hin. apply elem_of_cons in Hin as [->|Hin]; [done|]. by apply IH.
Qed.

Lemma model_offers_count model prefix ch :
  model_wf model → model_offers model prefix ch →
  (1 ≤ model_count model prefix ch)%nat.
Proof.
  unfold model_offers, model_count. intros Hwf Hoff.
  destruct (model !! prefix) as [c|] eqn:Hlook; simpl in *.
  - destruct (Hwf _ _ Hlook) as (_ & Hpos & _). by apply counter_keys_get.
  - by apply elem_of_nil in Hoff.
Qed.

Lemma dead_end_count model prefix ch :
  dead_end model prefix → model_count model prefix ch = 0%nat.
Proof. unfold dead_end, model_count. by intros ->. Qed.

Lemma model_offers_key model prefix ch :
  model_offers model prefix ch → is_Some (model !! prefix).
Proof.
  unfold model_offers. destruct (model !! prefix); [by eexists|].
  intros Hin. by apply elem_of_nil in Hin.
Qed.

End SlideFacts.

Section SpinFacts.

Variable draws : nat → nat.

(** A model none of whose walks reaches [MIN_WORD_LEN] never yields a word:
    with a positive target the loop is still running after any number of
    rounds, with an empty set. *)
Lemma generate_unproductive fuel (model : Model) count order :
  model_samplable model →
  (∀ w, walk model (PyStr.repeat "~"%char order) w → PyStr.len w < MIN_WORD_LEN) →
  0 < count →
  (generate_words_from_markov draws fuel model count order).1 = OutOfFuel ∧
  g_results (generate_words_from_markov draws fuel model count order).2 = ∅.
Proof.
  intros Hs Hshort Hcount. unfold generate_words_from_markov.
  assert (g_results (generate_loop draws fuel count order (GenState model ∅ 0)).2 = ∅)
    as Hres.
  { apply elem_of_equiv_empty_L. intros w Hw.
    apply (generate_loop_walks draws (λ _, False) model fuel count order) in Hw; [done|].
    intros w' Hmin Hwalk _. apply Hshort in Hwalk. lia. }
  split; [|done].
  destruct (generate_loop draws fuel count order (GenState model ∅ 0))
    as [s st] eqn:Hrun.
  destruct s as [|e|]; [| |done].
  - apply generate_loop_returned in Hrun. simpl in Hres. rewrite Hres in Hrun.
    rewrite size_empty in Hrun. lia.
  - exfalso. apply (generate_loop_no_raise draws fuel count order
                      (GenState model ∅ 0) e Hs). by rewrite Hrun.
Qed.

End SpinFacts.

(** * More on the word generator *)

(** Property X7 (generated words are walks). Every word of the result set
    is a walk through the model the run was given: its first character is
    offered by the table of the start prefix ["~" * order], and each later
    character by the table of the prefix held when it was drawn. *)
Theorem generated_words_are_walks (draws : nat → nat) (fuel : nat)
    (model : Model) (count order : Z) (s : status) (st : gen_state) (w : string) :
  generate_words_from_markov draws fuel model count order = (s, st) →
  w ∈ g_results st →
  walk model (PyStr.repeat "~"%char order) w.
Proof.
  intros Hrun Hin. unfold generate_words_from_markov in Hrun.
  apply (generate_loop_walks draws
           (λ w, walk model (PyStr.repeat "~"%char order) w) model fuel count order).
  - by intros w' _ Hwalk _.
  - by rewrite Hrun.
Qed.

Lemma generated_words_are_walks_witness :
  generate_words_from_markov (λ _, 0%nat) 1 (build_markov_chain ["bank"] 2) 1 2 =
  (Returned,
   GenState (<["nk" := []]> (build_markov_chain ["bank"] 2)) {["bank"]} 4) ∧
  "bank" ∈ ({["bank"]} : gset string) ∧
  walk (build_markov_chain ["bank"] 2) (PyStr.repeat "~"%char 2) "bank".
Proof.
  assert ("bank" ∈ ({["bank"]} : gset string)) as Hin by (by apply elem_of_singleton).
  split; [exact generate_bank|]. split; [exact Hin|].
  exact (generated_words_are_walks _ _ _ _ _ _ _ "bank" generate_bank Hin).
Defined.

(** Property X8 (a word is never cut short). A word of the result set has
    the full [MAX_SYNTH_LEN] = 20 characters, or it ends at a dead end: the
    prefix held after its last character has no entry in the model the run
    was given. *)
Theorem generated_words_stop_at_dead_ends (draws : nat → nat) (fuel : nat)
    (model : Model) (count order : Z) (s : status) (st : gen_state) (w : string) :
  generate_words_from_markov draws fuel model count order = (s, st) →
  w ∈ g_results st →
  String.length w = 20%nat ∨
  dead_end model (slide (PyStr.repeat "~"%char order) w).
Proof.
  intros Hrun Hin. unfold generate_words_from_markov in Hrun.
  apply (generate_loop_walks draws
           (λ w, String.length w = 20%nat ∨
                 dead_end model (slide (PyStr.repeat "~"%char order) w))
           model fuel count order).
  - by intros w' _ _ Hend.
  - by rewrite Hrun.
Qed.

Lemma generated_words_stop_at_dead_ends_witness :
  generate_words_from_markov (λ _, 0%nat) 1 (build_markov_chain ["bank"] 2) 1 2 =
  (Returned,
   GenState (<["nk" := []]> (build_markov_chain ["bank"] 2)) {["bank"]} 4) ∧
  "bank" ∈ ({["bank"]} : gset string) ∧
  (String.length "bank" = 20%nat ∨
   dead_end (build_markov_chain ["bank"] 2) (slide (PyStr.repeat "~"%char 2) "bank")).
Proof.
  assert ("bank" ∈ ({["bank"]} : gset string)) as Hin by (by apply elem_of_singleton).
  split; [exact generate_bank|]. split; [exact Hin|].
  exact (generated_words_stop_at_dead_ends _ _ _ _ _ _ _ "bank" generate_bank Hin).
Defined.



(** Property X10 (work per round). After [fuel] rounds of the [while] loop
    the result set has at most [fuel] words and [random.choices] has been
    called at most 20 times [fuel]: a round adds at most one word and draws
    at most [MAX_SYNTH_LEN] characters. *)
Theorem generate_round_budget (draws : nat → nat) (fuel : nat) (model : Model)
    (count order : Z) :
  (size (g_results (generate_words_from_markov draws fuel model count order).2)
     ≤ fuel)%nat ∧
  (g_calls (generate_words_from_markov draws fuel model count order).2
     ≤ 20 * fuel)%nat.
Proof.
  destruct (generate_loop_budget draws fuel count order (GenState model ∅ 0))
    as [Hsize Hcalls].
  cbn [g_results g_calls] in *. rewrite size_empty in Hsize.
  unfold generate_words_from_markov, MAX_SYNTH_LEN in *. split; lia.
Qed.


(** Property X12 (order 0 never yields a word). With order 0 the builder
    files every transition under the empty prefix, but the generator's
    prefix has one character after the first draw, so every word ends after
    one character: for every corpus and every positive target count the
    generator does not return. *)
Theorem generate_order_zero_spins (draws : nat → nat) (fuel : nat)
    (words : list string) (count : Z) :
  0 < count →
  (generate_words_from_markov draws fuel (build_markov_chain words 0) count 0).1
    = OutOfFuel ∧
  g_results
    (generate_words_from_markov draws fuel (build_markov_chain words 0) count 0).2
    = ∅.
Proof.
  intros Hcount. apply generate_unproductive; [| |done].
  - apply model_positive_samplable, build_positive.
  - intros w Hwalk. destruct w as [|c1 [|c2 w]]; [done..|].
    destruct Hwalk as (_ & Hoff & _).
    apply model_offers_key, build_key_length in Hoff; [|done]. done.
Qed.

Lemma generate_order_zero_spins_witness :
  0 < 1 ∧
  (generate_words_from_markov (λ n, n) 9 (build_markov_chain ["bank"; "rank"] 0) 1 0).1
    = OutOfFuel.
Proof.
  assert (0 < 1) as Hcount by lia.
  split; [exact Hcount|].
  exact (proj1 (generate_order_zero_spins (λ n, n) 9 ["bank"; "rank"] 1 Hcount)).
Defined.


(** Property X13 (every character follows a context of the corpus). For an
    order of at least 1, take any word the generator produced from a built
    model and any character [ch] of it: some seed word has [ch] after the
    same context, that is, after the same last [order] characters of the
    sentinel-padded text before it. *)
Theorem generated_words_follow_corpus_contexts (draws : nat → nat) (fuel : nat)
    (words : list string) (count order : Z) (s : status) (st : gen_state)
    (pre post : string) (ch : ascii) :
  1 ≤ order →
  generate_words_from_markov draws fuel (build_markov_chain words order)
    count order = (s, st) →
  (pre ++ String ch post) ∈ g_results st →
  ∃ pre' post',
    (pre' ++ String ch post') ∈ words ∧
    context (Z.to_nat order) pre' = context (Z.to_nat order) pre.
Proof.
  intros Horder Hrun Hin.
  assert (walk (build_markov_chain words order) (PyStr.repeat "~"%char order)
            (pre ++ String ch post)) as Hwalk.
  { unfold generate_words_from_markov in Hrun.
    apply (generate_loop_walks draws
             (λ w, walk (build_markov_chain words order)
                     (PyStr.repeat "~"%char order) w)
             (build_markov_chain words order) fuel count order).
    - by intros w' _ Hwalk _.
    - by rewrite Hrun. }
  apply walk_split in Hwalk.
  rewrite <- (Z2Nat.id order), <- context_empty, slide_context in Hwalk by lia.
  change (EmptyString ++ pre) with pre in Hwalk.
  rewrite Z2Nat.id in Hwalk by lia.
  apply model_offers_count in Hwalk; [|apply build_wf].
  apply build_count_pos_iff in Hwalk as (pre' & post' & Hw & Hctx); [|lia].
  by exists pre', post'.
Qed.

Lemma generated_words_follow_corpus_contexts_witness :
  1 ≤ 2 ∧
  generate_words_from_markov (λ _, 0%nat) 1 (build_markov_chain ["bank"] 2) 1 2 =
  (Returned,
   GenState (<["nk" := []]> (build_markov_chain ["bank"] 2)) {["bank"]} 4) ∧
  ("ba" ++ String "n" "k") ∈ ({["bank"]} : gset string) ∧
  ∃ pre' post',
    (pre' ++ String "n" post') ∈ ["bank"] ∧ context 2 pre' = context 2 "ba".
Proof.
  assert (1 ≤ 2) as Horder by lia.
  assert (("ba" ++ String "n" "k") ∈ ({["bank"]} : gset string)) as Hin
    by (by apply elem_of_singleton).
  split; [exact Horder|]. split; [exact generate_bank|]. split; [exact Hin|].
  exact (generated_words_follow_corpus_contexts _ _ _ _ 2 _ _ "ba" "k" "n"
           Horder generate_bank Hin).
Defined.

(** Property X14 (where a short word ends). For an order of at least 1, a
    word the generator produced from a built model that has fewer than 20
    characters ends where the corpus never goes on: no seed word has a
    character after the context formed by the end of the word. *)
Theorem generated_short_words_end_like_the_corpus (draws : nat → nat)
    (fuel : nat) (words : list string) (count order : Z) (s : status)
    (st : gen_state) (w pre post : string) (ch : ascii) :
  1 ≤ order →
  generate_words_from_markov draws fuel (build_markov_chain words order)
    count order = (s, st) →
  w ∈ g_results st →
  (String.length w < 20)%nat →
  (pre ++ String ch post) ∈ words →
  context (Z.to_nat order) pre ≠ context (Z.to_nat order) w.
Proof.
  intros Horder Hrun Hin Hlen Hseed Hctx.
  assert (String.length w = 20%nat ∨
          dead_end (build_markov_chain words order)
            (slide (PyStr.repeat "~"%char order) w)) as [Hfull|Hdead].
  { unfold generate_words_from_markov in Hrun.
    apply (generate_loop_walks draws
             (λ w, String.length w = 20%nat ∨
                   dead_end (build_markov_chain words order)
                     (slide (PyStr.repeat "~"%char order) w))
             (build_markov_chain words order) fuel count order).
    - by intros w' _ _ Hend.
    - by rewrite Hrun. }
  { lia. }
  rewrite <- (Z2Nat.id order), <- context_empty, slide_context in Hdead by lia.
  change (EmptyString ++ w) with w in Hdead.
  rewrite Z2Nat.id in Hdead by lia.
  apply (dead_end_count _ _ ch) in Hdead.
  assert (1 ≤ model_count (build_markov_chain words order)
                (context (Z.to_nat order) w) ch)%nat; [|lia].
  apply build_count_pos_iff; [lia|]. by exists pre, post.
Qed.

Lemma generated_short_words_end_like_the_corpus_witness :
  1 ≤ 2 ∧
  generate_words_from_markov (λ _, 0%nat) 1 (build_markov_chain ["bank"] 2) 1 2 =
  (Returned,
   GenState (<["nk" := []]> (build_markov_chain ["bank"] 2)) {["bank"]} 4) ∧
  "bank" ∈ ({["bank"]} : gset string) ∧
  (String.length "bank" < 20)%nat ∧
  ("ba" ++ String "n" "k") ∈ ["bank"] ∧
  context 2 "ba" ≠ context 2 "bank".
Proof.
  assert (1 ≤ 2) as Horder by lia.
  assert ("bank" ∈ ({["bank"]} : gset string)) as Hin by (by apply elem_of_singleton).
  assert (String.length "bank" < 20)%nat as Hlen by (simpl; lia).
  assert (("ba" ++ String "n" "k") ∈ ["bank"]) as Hseed by (simpl; apply list_elem_of_here).
  split; [exact Horder|]. split; [exact generate_bank|]. split; [exact Hin|].
  split; [exact Hlen|]. split; [exact Hseed|].
  exact (generated_short_words_end_like_the_corpus _ _ _ _ 2 _ _ "bank" "ba" "k" "n"
           Horder generate_bank Hin Hlen Hseed).
Defined.

(** * The collector *)

Section BruteFacts.

Variable resolves : string → bool.

Lemma brute_fold domain (subs : list string) : ∀ found,
  fold_left
    (λ found sub,
       let fqdn := sub ++ "." ++ domain in
       if resolves fqdn then (found ++ [fqdn])%list else found)
    subs found =
  (found ++ filter (λ fqdn, resolves fqdn = true)
              ((λ sub, (sub ++ "." ++ domain)%string) <$> subs))%list.
Proof.
  induction subs as [|sub subs IH]; intros found; csimpl.
  - by rewrite app_nil_r.
  - rewrite IH, filter_cons. destruct (resolves (sub ++ "." ++ domain)) eqn:Hres.
    + rewrite decide_True by done. by rewrite <- (assoc_L (++)%list).
    + by rewrite decide_False by done.
Qed.

Lemma append_inj_l s1 s2 suffix : s1 ++ suffix = s2 ++ suffix → s1 = s2.
Proof.
  intros Heq. apply chars_inj. apply (f_equal PyStr.chars) in Heq.
  rewrite !chars_append in Heq. by apply app_inv_tail in Heq.
Qed.

Lemma append_inj_r s suffix1 suffix2 : s ++ suffix1 = s ++ suffix2 → suffix1 = suffix2.
Proof.
  intros Heq. apply chars_inj. apply (f_equal PyStr.chars) in Heq.
  rewrite !chars_append in Heq. by apply app_inv_head in Heq.
Qed.

Lemma brute_candidates_NoDup domain : NoDup (brute_candidates domain).
Proof.
  unfold brute_candidates. apply NoDup_fmap_2.
  - intros sub1 sub2 Heq. by apply append_inj_l in Heq.
  - apply (bool_decide_unpack _). vm_compute. exact I.
Qed.

End BruteFacts.

(** Property X15 ([brute_subdomains]). The function returns the names
    [sub + "." + domain], [sub] in [COMMON_SUBS], whose lookup does not
    raise, in the order of [COMMON_SUBS]; the list has no name twice and at
    most 11 names; a lookup that raises only leaves its name out. *)
Theorem brute_subdomains_are_resolving_candidates (resolves : string → bool)
    (domain : string) :
  brute_subdomains resolves domain =
    filter (λ fqdn, resolves fqdn = true) (brute_candidates domain) ∧
  NoDup (brute_subdomains resolves domain) ∧
  (length (brute_subdomains resolves domain) ≤ 11)%nat.
Proof.
  assert (brute_subdomains resolves domain =
          filter (λ fqdn, resolves fqdn = true) (brute_candidates domain)) as Heq
    by apply (brute_fold resolves domain COMMON_SUBS []).
  split; [done|]. rewrite Heq. split.
  - apply NoDup_filter, brute_candidates_NoDup.
  - etrans; [apply length_filter|]. unfold brute_candidates. by rewrite length_fmap.
Qed.

Section HttpFacts.

Variable http_get : string → option Z.

Lemma try_schemes_two sub :
  try_schemes http_get ["https://"; "http://"] sub =
  (live_url_of http_get sub, asked_of http_get sub).
Proof.
  unfold live_url_of, asked_of, answers_ok. cbn [try_schemes].
  destruct (http_get ("https://" ++ sub)) as [st1|];
    destruct (http_get ("http://" ++ sub)) as [st2|];
    repeat match goal with |- context [?a <? ?b] => destruct (a <? b) end; done.
Qed.

Lemma check_http_live_fold (subs : list string) : ∀ live asked,
  fold_left
    (λ '(live, asked) sub,
       let '(found, asked') := try_schemes http_get ["https://"; "http://"] sub in
       (match found with
        | Some url => (live ++ [url])%list
        | None => live
        end, (asked ++ asked')%list))
    subs (live, asked) =
  ((live ++ omap (live_url_of http_get) subs)%list,
   (asked ++ (subs ≫= asked_of http_get))%list).
Proof.
  induction subs as [|sub subs IH]; intros live asked.
  - by rewrite !app_nil_r.
  - cbn [fold_left]. rewrite try_schemes_two, IH. csimpl.
    destruct (live_url_of http_get sub); by rewrite <- !(assoc_L (++)%list).
Qed.

Lemma check_http_live_asking_eq subs :
  check_http_live_asking http_get subs =
  (omap (live_url_of http_get) subs, subs ≫= asked_of http_get).
Proof. apply (check_http_live_fold subs [] []). Qed.

Lemma live_url_of_Some sub url :
  live_url_of http_get sub = Some url ↔
  (url = "https://" ++ sub ∧ answers_ok http_get url = true) ∨
  (url = "http://" ++ sub ∧ answers_ok http_get ("https://" ++ sub) = false ∧
   answers_ok http_get url = true).
Proof.
  unfold live_url_of.
  destruct (answers_ok http_get ("https://" ++ sub)) eqn:Hs;
    [|destruct (answers_ok http_get ("http://" ++ sub)) eqn:Hp].
  - split.
    + intros [= <-]. by left.
    + intros [[-> _]|[_ [? _]]]; done.
  - split.
    + intros [= <-]. by right.
    + intros [[-> Hok]|[-> _]]; [congruence|done].
  - split; [done|]. intros [[-> Hok]|[-> [_ Hok]]]; congruence.
Qed.

Lemma omap_length_le {A B} (f : A → option B) (l : list A) :
  (length (omap f l) ≤ length l)%nat.
Proof.
  induction l as [|a l IH]; csimpl; [done|]. destruct (f a); simpl; lia.
Qed.

End HttpFacts.

(** Property X16 ([check_http_live], the hosts kept). A URL is in the
    returned list exactly when it is ["https://" + sub] for a subdomain of
    the input whose [https] request comes back with a status below 400, or
    ["http://" + sub] for one whose [https] request fails or comes back with
    400 or more and whose [http] request comes back below 400. Each
    subdomain gives at most one URL, in the order of the input. *)
Theorem check_http_live_keeps_answering_hosts (http_get : string → option Z)
    (subdomains : list string) (url : string) :
  check_http_live http_get subdomains = omap (live_url_of http_get) subdomains ∧
  (length (check_http_live http_get subdomains) ≤ length subdomains)%nat ∧
  (url ∈ check_http_live http_get subdomains ↔
   ∃ sub, sub ∈ subdomains ∧
     ((url = "https://" ++ sub ∧ answers_ok http_get url = true) ∨
      (url = "http://" ++ sub ∧
       answers_ok http_get ("https://" ++ sub) = false ∧
       answers_ok http_get url = true))).
Proof.
  assert (check_http_live http_get subdomains =
          omap (live_url_of http_get) subdomains) as Heq.
  { unfold check_http_live. by rewrite check_http_live_asking_eq. }
  split; [done|]. rewrite Heq. split; [apply omap_length_le|].
  rewrite list_elem_of_omap. split.
  - intros (sub & Hsub & Hlive). exists sub. split; [done|].
    by apply live_url_of_Some.
  - intros (sub & Hsub & Hlive). exists sub. split; [done|].
    by apply live_url_of_Some.
Qed.

(** Property X17 ([check_http_live], the requests made). The function makes
    one or two requests for each subdomain; every URL it keeps is one it
    requested; and it requests ["http://" + sub] only when the request for
    ["https://" + sub] did not come back with a status below 400. *)
Theorem check_http_live_requests (http_get : string → option Z)
    (subdomains : list string) :
  (length subdomains ≤ length (check_http_live_asking http_get subdomains).2
     ≤ 2 * length subdomains)%nat ∧
  (∀ url, url ∈ check_http_live http_get subdomains →
          url ∈ (check_http_live_asking http_get subdomains).2) ∧
  (∀ sub, ("http://" ++ sub) ∈ (check_http_live_asking http_get subdomains).2 →
          answers_ok http_get ("https://" ++ sub) = false).
Proof.
  unfold check_http_live. rewrite check_http_live_asking_eq. cbn [fst snd].
  split; [|split].
  - induction subdomains as [|sub subs IH]; csimpl; [lia|].
    rewrite length_app. unfold asked_of at 1 3.
    destruct (answers_ok http_get ("https://" ++ sub)); simpl; lia.
  - intros url. rewrite list_elem_of_omap, list_elem_of_bind.
    intros (sub & Hsub & Hlive). exists sub. split; [|done].
    unfold live_url_of, asked_of in *.
    destruct (answers_ok http_get ("https://" ++ sub)).
    + injection Hlive as <-. apply list_elem_of_here.
    + destruct (answers_ok http_get ("http://" ++ sub)); [|done].
      injection Hlive as <-. apply list_elem_of_further, list_elem_of_here.
  - intros sub. rewrite list_elem_of_bind. intros (sub' & Hurl & _).
    unfold asked_of in Hurl.
    destruct (answers_ok http_get ("https://" ++ sub')) eqn:Hok.
    + apply list_elem_of_singleton in Hurl. discriminate Hurl.
    + apply elem_of_cons in Hurl as [Hurl|Hurl]; [discriminate Hurl|].
      apply list_elem_of_singleton in Hurl.
      apply (append_inj_r "http://") in Hurl. by subst sub'.
Qed.

(** * The word pattern *)

Section CharFacts.

Lemma letter_is_word c : PyChar.is_letter c = true → PyChar.is_word c = true.
Proof.
  unfold PyChar.is_letter, PyChar.is_lower, PyChar.is_word.
  destruct (PyChar.in_range 97 122 c), (PyChar.in_range 65 90 c);
    rewrite ?orb_true_r; simpl; try done.
  all: by rewrite ?orb_true_r.
Qed.

Lemma lower_letter c :
  PyChar.is_letter c = true → PyChar.is_lower (PyChar.lower c) = true.
Proof.
  destruct c as [[] [] [] [] [] [] [] []]; vm_compute; done.
Qed.

Lemma lower_length s : String.length (PyText.lower s) = String.length s.
Proof. induction s as [|c s IH]; simpl; [done|]. by rewrite IH. Qed.

Lemma lower_chars s : PyStr.chars (PyText.lower s) = PyChar.lower <$> PyStr.chars s.
Proof.
  unfold PyStr.chars. induction s as [|c s IH]; [done|].
  cbn [PyText.lower list_ascii_of_string]. by rewrite IH.
Qed.

Lemma get_chars s : ∀ i, String.get i s = PyStr.chars s !! i.
Proof.
  unfold PyStr.chars. induction s as [|c s IH]; intros i; [by destruct i|].
  destruct i as [|i]; [done|]. apply IH.
Qed.

Lemma take_chars k s : PyStr.chars (PyText.take k s) = take k (PyStr.chars s).
Proof. unfold PyText.take. by rewrite chars_substring. Qed.

End CharFacts.

Section LettersFacts.

Lemma letters_le_length s : (PyRe.letters s ≤ String.length s)%nat.
Proof.
  induction s as [|c s IH]; simpl; [lia|]. destruct (PyChar.is_letter c); lia.
Qed.

Lemma letters_get s : ∀ j,
  (j < PyRe.letters s)%nat → ∃ c, String.get j s = Some c ∧ PyChar.is_letter c = true.
Proof.
  induction s as [|c s IH]; intros j; simpl; [lia|].
  destruct (PyChar.is_letter c) eqn:Hc; [|lia].
  destruct j as [|j]; [by exists c|]. intros Hj. apply IH. lia.
Qed.

Lemma letters_stop s : ∀ j,
  (∀ c, String.get j s = Some c → PyChar.is_letter c = false) →
  (PyRe.letters s ≤ j)%nat.
Proof.
  induction s as [|c s IH]; intros j Hj; simpl; [lia|].
  destruct (PyChar.is_letter c) eqn:Hc; [|lia].
  destruct j as [|j].
  - specialize (Hj c eq_refl). congruence.
  - specialize (IH j Hj). lia.
Qed.

Lemma letters_reach s : ∀ m,
  (∀ j, (j < m)%nat → ∃ c, String.get j s = Some c ∧ PyChar.is_letter c = true) →
  (m ≤ PyRe.letters s)%nat.
Proof.
  induction s as [|c s IH]; intros m Hm.
  - destruct m as [|m]; [done|]. destruct (Hm 0%nat) as (c & Hc & _); [lia|done].
  - destruct m as [|m]; [lia|]. simpl.
    destruct (Hm 0%nat) as (c' & [= <-] & ->); [lia|].
    assert (m ≤ PyRe.letters s)%nat; [|lia].
    apply IH. intros j Hj. apply (Hm (S j)). lia.
Qed.

Lemma not_word_not_letter (c : option ascii) ch :
  PyRe.is_word_at c = false → c = Some ch → PyChar.is_letter ch = false.
Proof.
  intros Hw ->. simpl in Hw. destruct (PyChar.is_letter ch) eqn:Hl; [|done].
  apply letter_is_word in Hl. congruence.
Qed.

Lemma backtrack_spec n prev s : ∀ k m,
  PyRe.backtrack n k prev s = Some m →
  (n ≤ m ≤ k)%nat ∧
  PyRe.boundary (PyRe.before prev s m) (String.get m s) = true.
Proof.
  induction k as [|k IH]; intros m; simpl.
  - destruct (0 <? n)%nat eqn:Hn; [done|]. apply Nat.ltb_ge in Hn.
    destruct (PyRe.boundary prev _) eqn:Hb; [|done].
    intros [= <-]. split; [lia|done].
  - destruct (S k <? n)%nat eqn:Hn; [done|]. apply Nat.ltb_ge in Hn.
    destruct (PyRe.boundary (String.get k s) _) eqn:Hb.
    + intros [= <-]. split; [lia|done].
    + intros Hm. apply IH in Hm as [Hm Hb']. split; [lia|done].
Qed.

Lemma backtrack_hit n k prev s :
  (n ≤ k)%nat →
  PyRe.boundary (PyRe.before prev s k) (String.get k s) = true →
  PyRe.backtrack n k prev s = Some k.
Proof.
  intros Hn Hb. destruct k as [|k]; simpl in *.
  - apply Nat.ltb_ge in Hn. by rewrite Hn, Hb.
  - apply Nat.ltb_ge in Hn. by rewrite Hn, Hb.
Qed.

End LettersFacts.

Section TokenFacts.

Variable n : nat.
Hypothesis n_pos : (1 ≤ n)%nat.

Lemma token_shift prev c s i w :
  token_at n prev (String c s) (S i) w ↔ token_at n (Some c) s i w.
Proof.
  unfold token_at. cbn [String.length PyRe.before].
  replace (String.get i (String c s)) with (PyRe.before (Some c) s i)
    by (by destruct i).
  change (String.get (S i + String.length w) (String c s))
    with (String.get (i + String.length w) s).
  change (substring (S i) (String.length w) (String c s))
    with (substring i (String.length w) s).
  assert ((S i + String.length w ≤ S (String.length s))%nat ↔
          (i + String.length w ≤ String.length s)%nat) as -> by lia.
  done.
Qed.

(** A match at the head of [s] is a whole word of letters. *)
Lemma match_at_token prev s k :
  PyRe.match_at n prev s = Some k → token_at n prev s 0 (PyText.take k s).
Proof.
  unfold PyRe.match_at.
  destruct (PyRe.boundary prev (String.get 0 s)) eqn:Hstart; [|done].
  intros Hback. apply backtrack_spec in Hback as [Hk Hend].
  pose proof (letters_le_length s) as Hlen.
  assert (String.length (PyText.take k s) = k) as Htake.
  { rewrite <- chars_length, take_chars, length_take, chars_length. lia. }
  destruct k as [|j]; [lia|].
  destruct (letters_get s 0) as (c0 & Hc0 & Hl0); [lia|].
  destruct (letters_get s j) as (cj & Hcj & Hlj); [lia|].
  unfold token_at. rewrite Htake. repeat split.
  - lia.
  - lia.
  - apply Forall_lookup. intros i c Hi. rewrite take_chars in Hi.
    apply lookup_take_Some in Hi as [Hi Hlt].
    destruct (letters_get s i) as (c' & Hc' & Hl'); [lia|].
    rewrite get_chars in Hc'. congruence.
  - cbn [PyRe.before]. rewrite Hc0 in Hstart. unfold PyRe.boundary in Hstart.
    simpl in Hstart. rewrite (letter_is_word _ Hl0) in Hstart.
    by destruct (PyRe.is_word_at prev).
  - cbn [PyRe.before] in Hend. rewrite Hcj in Hend. unfold PyRe.boundary in Hend.
    simpl in Hend. rewrite (letter_is_word _ Hlj) in Hend.
    by destruct (PyRe.is_word_at _).
Qed.

Lemma token_letters prev s w j :
  token_at n prev s 0 w → (j < String.length w)%nat →
  ∃ c, String.get j s = Some c ∧ PyChar.is_letter c = true.
Proof.
  intros (Hsub & Hlen & _ & Hall & _) Hj.
  assert (PyStr.chars w = take (String.length w) (PyStr.chars s)) as Hw.
  { rewrite <- Hsub at 1. by rewrite chars_substring, drop_0. }
  destruct (lookup_lt_is_Some_2 (PyStr.chars w) j) as [c Hc];
    [by rewrite chars_length|].
  exists c. split.
  - rewrite get_chars. rewrite Hw in Hc. by apply lookup_take_Some in Hc as [? _].
  - by eapply (proj1 (Forall_lookup _ _) Hall).
Qed.

(** A whole word at the head of [s] is matched, in full. *)
Lemma token_match prev s w :
  token_at n prev s 0 w →
  PyRe.match_at n prev s = Some (String.length w) ∧
  PyText.take (String.length w) s = w.
Proof.
  intros Htok. pose proof Htok as (Hsub & Hlen & Hn & Hall & Hprev & Hnext).
  split; [|done].
  assert (PyRe.letters s = String.length w) as Hletters.
  { apply Nat.le_antisymm.
    - apply letters_stop. intros c Hc. by eapply not_word_not_letter.
    - apply letters_reach. intros j Hj. by eapply token_letters. }
  destruct (String.length w) as [|m] eqn:Hm; [lia|].
  destruct (token_letters prev s w 0 Htok) as (c0 & Hc0 & Hl0); [lia|].
  destruct (token_letters prev s w m Htok) as (cm & Hcm & Hlm); [lia|].
  unfold PyRe.match_at. rewrite Hletters.
  cbn [PyRe.before] in Hprev. simpl in Hnext.
  assert (PyRe.boundary prev (String.get 0 s) = true) as ->.
  { rewrite Hc0. unfold PyRe.boundary. simpl.
    by rewrite Hprev, (letter_is_word _ Hl0). }
  apply backtrack_hit; [lia|]. cbn [PyRe.before].
  rewrite Hcm. unfold PyRe.boundary. simpl.
  by rewrite Hnext, (letter_is_word _ Hlm).
Qed.

Lemma scan_sound s : ∀ prev skip w,
  w ∈ PyRe.scan n prev skip s →
  ∃ i, (skip ≤ i)%nat ∧ token_at n prev s i w.
Proof.
  induction s as [|c s IH]; intros prev skip w; cbn [PyRe.scan].
  - intros Hin. by apply elem_of_nil in Hin.
  - destruct skip as [|skip].
    + destruct (PyRe.match_at n prev (String c s)) as [k|] eqn:Hmatch.
      * intros Hin. apply elem_of_cons in Hin as [->|Hin].
        -- exists 0%nat. split; [lia|]. by apply match_at_token.
        -- apply IH in Hin as (i & _ & Htok). exists (S i). split; [lia|].
           by apply token_shift.
      * intros Hin. apply IH in Hin as (i & _ & Htok). exists (S i).
        split; [lia|]. by apply token_shift.
    + intros Hin. apply IH in Hin as (i & Hi & Htok). exists (S i).
      split; [lia|]. by apply token_shift.
Qed.

Lemma scan_complete s : ∀ prev skip i w,
  token_at n prev s i w → (skip ≤ i)%nat → w ∈ PyRe.scan n prev skip s.
Proof.
  induction s as [|c s IH]; intros prev skip i w Htok Hskip; cbn [PyRe.scan].
  - destruct Htok as (_ & Hlen & Hn & _). simpl in Hlen. lia.
  - destruct i as [|i].
    + assert (skip = 0%nat) as -> by lia.
      apply token_match in Htok as [-> Htake]. rewrite Htake.
      apply list_elem_of_here.
    + pose proof Htok as (_ & _ & _ & _ & Hprev & _).
      apply token_shift in Htok.
      destruct skip as [|skip]; [|apply (IH _ _ i); [done|lia]].
      destruct (PyRe.match_at n prev (String c s)) as [k|] eqn:Hmatch;
        [|apply (IH _ _ i); [done|lia]].
      apply list_elem_of_further, (IH _ _ i); [done|].
      unfold PyRe.match_at in Hmatch.
      destruct (PyRe.boundary prev _); [|done].
      apply backtrack_spec in Hmatch as [Hk _].
      assert (PyRe.letters (String c s) ≤ i)%nat; [|lia].
      apply letters_stop. intros c' Hc'. cbn [PyRe.before] in Hprev.
      by eapply not_word_not_letter.
Qed.

End TokenFacts.

Section ExtractFacts.

Lemma add_words_elem (f : string → string) (found : list string) : ∀ words w,
  w ∈ fold_left (λ words word, {[f word]} ∪ words) found (words : gset string) ↔
  w ∈ words ∨ ∃ word, word ∈ found ∧ w = f word.
Proof.
  induction found as [|x found IH]; intros words w; cbn [fold_left].
  - split; [by left|]. intros [?|(word & Hin & _)]; [done|].
    by apply elem_of_nil in Hin.
  - rewrite IH, elem_of_union, elem_of_singleton. split.
    + intros [[->|?]|(word & Hin & ->)].
      * right. exists x. split; [apply list_elem_of_here|done].
      * by left.
      * right. exists word. split; [by apply list_elem_of_further|done].
    + intros [?|(word & Hin & ->)]; [left; by right|].
      apply elem_of_cons in Hin as [->|Hin]; [left; by left|].
      right. by exists word.
Qed.

Lemma extract_fold_elem (texts : list string) : ∀ words w,
  w ∈ fold_left
        (λ words line,
           fold_left (λ words word, {[PyText.lower word]} ∪ words)
             (PyRe.findall (Z.to_nat MIN_WORD_LEN) line) words)
        texts (words : gset string) ↔
  w ∈ words ∨
  ∃ line word, line ∈ texts ∧
    word ∈ PyRe.findall (Z.to_nat MIN_WORD_LEN) line ∧ w = PyText.lower word.
Proof.
  induction texts as [|line texts IH]; intros words w; cbn [fold_left].
  - split; [by left|]. intros [?|(line & word & Hin & _)]; [done|].
    by apply elem_of_nil in Hin.
  - rewrite IH, add_words_elem. split.
    + intros [[?|(word & Hin & ->)]|(line' & word & Hl & Hin & ->)].
      * by left.
      * right. exists line, word. split; [apply list_elem_of_here|done].
      * right. exists line', word. split; [by apply list_elem_of_further|done].
    + intros [?|(line' & word & Hl & Hin & ->)]; [left; by left|].
      apply elem_of_cons in Hl as [->|Hl].
      * left. right. by exists word.
      * right. by exists line', word.
Qed.

Lemma extract_elem texts w :
  w ∈ extract_words_from_texts texts ↔
  ∃ line i word, line ∈ texts ∧
    token_at (Z.to_nat MIN_WORD_LEN) None line i word ∧ w = PyText.lower word.
Proof.
  unfold extract_words_from_texts. rewrite extract_fold_elem.
  assert (1 ≤ Z.to_nat MIN_WORD_LEN)%nat as Hn by (vm_compute; lia).
  split.
  - intros [Hin|(line & word & Hl & Hin & ->)]; [by apply elem_of_empty in Hin|].
    apply scan_sound in Hin as (i & _ & Htok); [|done]. by exists line, i, word.
  - intros (line & i & word & Hl & Htok & ->). right. exists line, word.
    split; [done|]. split; [|done].
    apply (scan_complete _ Hn line None 0 i); [done|lia].
Qed.

Lemma token_lower_seed_word prev line i word :
  token_at (Z.to_nat MIN_WORD_LEN) prev line i word → seed_word (PyText.lower word).
Proof.
  intros (_ & _ & Hn & Hall & _). split.
  - unfold PyStr.len. rewrite lower_length.
    assert (Z.to_nat MIN_WORD_LEN = 4%nat) as Hmin by done. unfold MIN_WORD_LEN. lia.
  - rewrite lower_chars. apply Forall_fmap. eapply Forall_impl; [exact Hall|].
    intros c Hc. by apply lower_letter.
Qed.

Lemma extract_seed_words texts w :
  w ∈ extract_words_from_texts texts → seed_word w.
Proof.
  intros Hin. apply extract_elem in Hin as (line & i & word & _ & Htok & ->).
  by eapply token_lower_seed_word.
Qed.

Lemma main_all_words_fold (page_texts : string → list string) (hosts : list string) :
  ∀ (all_words : gset string) w,
  w ∈ fold_left (λ all_words url, all_words ∪ extract_words_from_url page_texts url)
        hosts all_words ↔
  w ∈ all_words ∨ ∃ url, url ∈ hosts ∧ w ∈ extract_words_from_url page_texts url.
Proof.
  induction hosts as [|url hosts IH]; intros all_words w; cbn [fold_left].
  - split; [by left|]. intros [?|(url & Hin & _)]; [done|].
    by apply elem_of_nil in Hin.
  - rewrite IH, elem_of_union. split.
    + intros [[?|?]|(url' & Hin & Hw)].
      * by left.
      * right. exists url. split; [apply list_elem_of_here|done].
      * right. exists url'. split; [by apply list_elem_of_further|done].
    + intros [?|(url' & Hin & Hw)]; [left; by left|].
      apply elem_of_cons in Hin as [->|Hin]; [left; by right|].
      right. by exists url'.
Qed.

Lemma main_all_words_elem (page_texts : string → list string) hosts w :
  w ∈ main_all_words page_texts hosts ↔
  ∃ url, url ∈ hosts ∧ w ∈ extract_words_from_url page_texts url.
Proof.
  unfold main_all_words. rewrite main_all_words_fold. split; [|by right].
  intros [Hin|?]; [by apply elem_of_empty in Hin|done].
Qed.

Lemma main_words_are_seed_words_aux (resolves : string → bool)
    (http_get : string → option Z) (page_texts : string → list string)
    (crtsh : list string) (domain w : string) :
  w ∈ main_words resolves http_get page_texts crtsh domain → seed_word w.
Proof.
  unfold main_words. intros Hin.
  apply main_all_words_elem in Hin as (url & _ & Hw).
  by eapply extract_seed_words.
Qed.

End ExtractFacts.

(** Property X18 (what the word pattern finds). For [n] of at least 1,
    [re.findall(r"\b[a-zA-Z]{n,}\b", line)] returns exactly the whole words
    of at least [n] letters of the line: [w] is returned if and only if it
    stands in the line at some index, consists of letters [a-zA-Z] only, is
    at least [n] long, and has no word character (alphanumeric or
    underscore) right before it or right after it. *)
Theorem findall_finds_whole_words (n : nat) (line w : string) :
  (1 ≤ n)%nat →
  w ∈ PyRe.findall n line ↔ ∃ i, token_at n None line i w.
Proof.
  intros Hn. unfold PyRe.findall. split.
  - intros Hin. apply (scan_sound n Hn) in Hin as (i & _ & Htok). by exists i.
  - intros (i & Htok). apply (scan_complete n Hn line None 0 i); [done|lia].
Qed.

Lemma findall_finds_whole_words_witness :
  (1 ≤ 4)%nat ∧
  ("Bank" ∈ PyRe.findall 4 "My Bank, est. 1999" ↔
   ∃ i, token_at 4 None "My Bank, est. 1999" i "Bank").
Proof.
  assert (1 ≤ 4)%nat as Hn by lia.
  split; [exact Hn | exact (findall_finds_whole_words 4 _ "Bank" Hn)].
Defined.

(** Property X19 (the words of a page). A word is in the set
    [extract_words_from_url] builds from the lines of a page exactly when it
    is the lowercase form of a whole word of at least [MIN_WORD_LEN] letters
    of one of the lines. *)
Theorem extracted_words_are_lowered_whole_words (texts : list string) (w : string) :
  w ∈ extract_words_from_texts texts ↔
  ∃ line i word, line ∈ texts ∧
    token_at (Z.to_nat MIN_WORD_LEN) None line i word ∧ w = PyText.lower word.
Proof. apply extract_elem. Qed.

(** Property X20 (the collector keeps the core's input contract). Every
    word [extract_words_from_url] returns has at least [MIN_WORD_LEN]
    characters, all of them lowercase letters [a-z]. *)
Theorem extracted_words_are_seed_words (page_texts : string → list string)
    (url w : string) :
  w ∈ extract_words_from_url page_texts url → seed_word w.
Proof. apply extract_seed_words. Qed.

Lemma extracted_words_are_seed_words_witness :
  "bank" ∈ extract_words_from_url (λ _, ["My Bank, est. 1999"]) "https://x.org" ∧
  seed_word "bank".
Proof.
  assert ("bank" ∈ extract_words_from_url (λ _, ["My Bank, est. 1999"])
                     "https://x.org") as Hin
    by (apply (bool_decide_unpack _); vm_compute; exact I).
  split; [exact Hin | exact (extracted_words_are_seed_words _ _ _ Hin)].
Defined.

(** Property X21 (the collected words depend on the set of hosts only). The
    set [all_words] that [main] builds from the live hosts is the same for
    two lists of hosts with the same members: neither the order in which
    the hosts are read nor a repeated host changes it. *)
Theorem main_all_words_depend_on_host_set (page_texts : string → list string)
    (hosts hosts' : list string) :
  (∀ url, url ∈ hosts ↔ url ∈ hosts') →
  main_all_words page_texts hosts = main_all_words page_texts hosts'.
Proof.
  intros Hsame. apply set_eq. intros w. rewrite !main_all_words_elem.
  split; intros (url & Hurl & Hw); exists url; (split; [by apply Hsame|done]).
Qed.

Lemma main_all_words_depend_on_host_set_witness :
  (∀ url, url ∈ ["https://a.org"; "http://b.org"] ↔
          url ∈ ["http://b.org"; "https://a.org"; "http://b.org"]) ∧
  main_all_words (λ url, [url]) ["https://a.org"; "http://b.org"] =
  main_all_words (λ url, [url]) ["http://b.org"; "https://a.org"; "http://b.org"].
Proof.
  assert (∀ url, url ∈ ["https://a.org"; "http://b.org"] ↔
                 url ∈ ["http://b.org"; "https://a.org"; "http://b.org"]) as Hsame.
  { intros url. rewrite !elem_of_cons, !elem_of_nil. tauto. }
  split; [exact Hsame | exact (main_all_words_depend_on_host_set _ _ _ Hsame)].
Defined.

(** Property X22 ([main] feeds the core seed words only). Whatever the
    certificate log, the name lookups and the hosts answer, every word
    [main] collects has at least [MIN_WORD_LEN] characters, all of them
    lowercase letters [a-z]. *)
Theorem main_words_are_seed_words (resolves : string → bool)
    (http_get : string → option Z) (page_texts : string → list string)
    (crtsh : list string) (domain w : string) :
  w ∈ main_words resolves http_get page_texts crtsh domain → seed_word w.
Proof. apply main_words_are_seed_words_aux. Qed.

Lemma main_words_are_seed_words_witness :
  "welcome" ∈ main_words (λ _, false) (λ _, Some 200)
                (λ _, ["Welcome to the Bank"; "bank-notes, e.g. 1234"])
                ["www.example.com"] "example.com" ∧
  seed_word "welcome".
Proof.
  assert ("welcome" ∈ main_words (λ _, false) (λ _, Some 200)
                        (λ _, ["Welcome to the Bank"; "bank-notes, e.g. 1234"])
                        ["www.example.com"] "example.com") as Hin
    by (apply (bool_decide_unpack _); vm_compute; exact I).
  split; [exact Hin | exact (main_words_are_seed_words _ _ _ _ _ _ Hin)].
Defined.

(** Property X23 (what [main] writes out). Every word of the expanded set
    that [main] computes from the words it collected has at least
    [MIN_WORD_LEN] characters, all of them lowercase letters [a-z]: the
    expansion introduces no other character, not even the sentinel. *)
Theorem main_expanded_words_are_seed_words (resolves : string → bool)
    (http_get : string → option Z) (page_texts : string → list string)
    (crtsh : list string) (domain : string) (draws : nat → nat) (fuel : nat)
    (all_words : list string) (s : status) (st : gen_state) (x : string) :
  (∀ w, w ∈ all_words →
        w ∈ main_words resolves http_get page_texts crtsh domain) →
  main_expand draws fuel all_words = (s, st) →
  x ∈ g_results st →
  seed_word x.
Proof.
  intros Hwords Hrun Hx. unfold main_expand, generate_words_from_markov in Hrun.
  split.
  - apply (generate_loop_lengths draws fuel
             (Z.of_nat (length all_words) * EXPANSION_MULTIPLIER) 2
             (GenState (build_markov_chain all_words 2) ∅ 0)).
    + intros w Hw. by apply elem_of_empty in Hw.
    + by rewrite Hrun.
  - apply Forall_forall. intros ch Hch.
    apply (generate_loop_alphabet draws (λ c, PyChar.is_lower c = true) fuel
             (Z.of_nat (length all_words) * EXPANSION_MULTIPLIER) 2
             (GenState (build_markov_chain all_words 2) ∅ 0)) with (w := x).
    + intros c Hc. cbn [g_model] in Hc.
      apply build_emits in Hc as (w & Hw & Hcw).
      apply Hwords, main_words_are_seed_words_aux in Hw.
      destruct Hw as [_ Hall]. by eapply (proj1 (Forall_forall _ _) Hall).
    + intros w c Hw. by apply elem_of_empty in Hw.
    + by rewrite Hrun.
    + done.
Qed.

Lemma main_expanded_words_are_seed_words_witness :
  (∀ w, w ∈ ["welcome"; "notes"; "bank"] →
        w ∈ main_words (λ _, false) (λ _, Some 200)
              (λ _, ["Welcome to the Bank"; "bank-notes, e.g. 1234"])
              ["www.example.com"] "example.com") ∧
  "notes" ∈ g_results (main_expand (λ n, n) 3 ["welcome"; "notes"; "bank"]).2 ∧
  seed_word "notes".
Proof.
  assert (∀ w, w ∈ ["welcome"; "notes"; "bank"] →
               w ∈ main_words (λ _, false) (λ _, Some 200)
                     (λ _, ["Welcome to the Bank"; "bank-notes, e.g. 1234"])
                     ["www.example.com"] "example.com") as Hwords.
  { intros w Hw.
    repeat (apply elem_of_cons in Hw as [->|Hw]); [..|by apply elem_of_nil in Hw];
      apply (bool_decide_unpack _); vm_compute; exact I. }
  assert ("notes" ∈ g_results (main_expand (λ n, n) 3 ["welcome"; "notes"; "bank"]).2)
    as Hx by (apply (bool_decide_unpack _); vm_compute; exact I).
  split; [exact Hwords|]. split; [exact Hx|].
  exact (main_expanded_words_are_seed_words _ _ _ _ _ (λ n, n) 3 _ _ _ "notes"
           Hwords (surjective_pairing _) Hx).
Defined.

(** Property X24 (thirty words for one). Whenever the expansion step of
    [main] returns, the expanded set has exactly [EXPANSION_MULTIPLIER] = 30
    times as many words as there are collected words. *)
Theorem main_expands_thirtyfold (draws : nat → nat) (fuel : nat)
    (all_words : list string) (st : gen_state) :
  main_expand draws fuel all_words = (Returned, st) →
  Z.of_nat (size (g_results st)) = 30 * Z.of_nat (length all_words).
Proof.
  unfold main_expand, generate_words_from_markov, EXPANSION_MULTIPLIER.
  intros Hrun.
  pose proof (generate_loop_returned draws _ _ _ _ _ Hrun) as Hge.
  pose proof (generate_loop_at_most draws fuel (Z.of_nat (length all_words) * 30) 2
                (GenState (build_markov_chain all_words 2) ∅ 0)) as Hle.
  rewrite Hrun in Hle. cbn [g_results snd] in Hle. rewrite size_empty in Hle.
  lia.
Qed.

Lemma main_expands_thirtyfold_witness :
  (main_expand (λ n, n + n / 3 + n / 7 + n / 11 + n / 13)%nat 40 ["aabbabab"]).1
    = Returned ∧
  Z.of_nat (size (g_results
    (main_expand (λ n, n + n / 3 + n / 7 + n / 11 + n / 13)%nat 40 ["aabbabab"]).2))
    = 30 * Z.of_nat (length ["aabbabab"]).
Proof.
  assert ((main_expand (λ n, n + n / 3 + n / 7 + n / 11 + n / 13)%nat 40
             ["aabbabab"]).1 = Returned) as Hret by (vm_compute; reflexivity).
  split; [exact Hret|].
  apply (main_expands_thirtyfold (λ n, n + n / 3 + n / 7 + n / 11 + n / 13)%nat 40).
  rewrite <- Hret. apply surjective_pairing.
Defined.

(** * The certificate log *)

Section LineFacts.

Lemma append_assoc s1 s2 s3 : (s1 ++ s2) ++ s3 = s1 ++ s2 ++ s3.
Proof. apply chars_inj. by rewrite !chars_append, (assoc_L (++)%list). Qed.

Lemma prefix_spec d : ∀ s, String.prefix d s = true ↔ ∃ b, s = d ++ b.
Proof.
  induction d as [|x d IH]; intros s.
  - split; [|by destruct s]. intros _. by exists s.
  - destruct s as [|c s]; simpl.
    + split; [done|]. by intros (b & ?).
    + destruct (ascii_dec x c) as [->|Hne].
      * rewrite IH. split; intros (b & Hb); exists b.
        -- by rewrite Hb.
        -- by injection Hb.
      * split; [done|]. intros (b & Hb). by injection Hb as -> _.
Qed.

Lemma contains_spec d : ∀ s,
  PyLine.contains d s = true ↔ ∃ a b, s = a ++ d ++ b.
Proof.
  induction s as [|c s IH]; cbn [PyLine.contains].
  - destruct (String.prefix d EmptyString) eqn:Hp.
    + split; [|done]. intros _. apply prefix_spec in Hp as (b & Hb).
      by exists EmptyString, b.
    + split; [done|]. intros (a & b & Hab). destruct a; [|done].
      assert (String.prefix d EmptyString = true); [|congruence].
      apply prefix_spec. by exists b.
  - destruct (String.prefix d (String c s)) eqn:Hp.
    + split; [|done]. intros _. apply prefix_spec in Hp as (b & Hb).
      by exists EmptyString, b.
    + rewrite IH. split.
      * intros (a & b & ->). by exists (String c a), b.
      * intros (a & b & Hab). destruct a as [|c' a].
        -- assert (String.prefix d (String c s) = true); [|congruence].
           apply prefix_spec. by exists b.
        -- injection Hab as -> ->. by exists a, b.
Qed.

Lemma lstrip_app a x rest :
  PyLine.is_space x = false →
  PyLine.lstrip (a ++ String x rest) = PyLine.lstrip a ++ String x rest.
Proof.
  intros Hx. induction a as [|c a IH]; simpl.
  - by rewrite Hx.
  - by destruct (PyLine.is_space c).
Qed.

Lemma rstrip_app p y b :
  PyLine.is_space y = false →
  PyLine.rstrip (p ++ String y b) = p ++ String y (PyLine.rstrip b).
Proof.
  intros Hy. induction p as [|c p IH].
  - change (EmptyString ++ String y b) with (String y b). cbn [PyLine.rstrip].
    rewrite Hy. by destruct (PyLine.rstrip b).
  - change (String c p ++ String y b) with (String c (p ++ String y b)).
    cbn [PyLine.rstrip]. rewrite IH. by destruct p.
Qed.

Lemma lstrip_length s : (String.length (PyLine.lstrip s) ≤ String.length s)%nat.
Proof.
  induction s as [|c s IH]; simpl; [done|].
  destruct (PyLine.is_space c); simpl; lia.
Qed.

Lemma rstrip_length s : (String.length (PyLine.rstrip s) ≤ String.length s)%nat.
Proof.
  induction s as [|c s IH]; simpl; [done|].
  destruct (PyLine.rstrip s); [destruct (PyLine.is_space c)|]; simpl in *; lia.
Qed.

(** A non-empty string that [strip] leaves alone starts and ends with a
    character that is no white space. *)
Lemma strip_fixed d :
  d ≠ EmptyString → PyLine.strip d = d →
  ∃ x d' p y, d = String x d' ∧ d = p ++ String y EmptyString ∧
    PyLine.is_space x = false ∧ PyLine.is_space y = false.
Proof.
  intros Hne Hstrip. unfold PyLine.strip in Hstrip.
  destruct d as [|x d']; [done|].
  assert (PyLine.is_space x = false) as Hx.
  { destruct (PyLine.is_space x) eqn:Hx; [|done].
    pose proof (rstrip_length (PyLine.lstrip (String x d'))) as H1.
    pose proof (lstrip_length d') as H2.
    rewrite Hstrip in H1. simpl in H1. rewrite Hx in H1. simpl in H1. lia. }
  cbn [PyLine.lstrip] in Hstrip. rewrite Hx in Hstrip.
  exists x, d'.
  assert (∀ s, s ≠ EmptyString → PyLine.rstrip s = s →
               ∃ p y, s = p ++ String y EmptyString ∧ PyLine.is_space y = false)
    as Hlast.
  { clear. induction s as [|c s IH]; [done|]. intros _. cbn [PyLine.rstrip].
    destruct (PyLine.rstrip s) as [|c' r] eqn:Hr.
    - destruct (PyLine.is_space c) eqn:Hc; [done|]. intros [= <-].
      by exists EmptyString, c.
    - intros [= Hs]. destruct IH as (p & y & -> & Hy); [by rewrite <- Hs|congruence|].
      by exists (String c p), y. }
  destruct (Hlast (String x d')) as (p & y & Hp & Hy); [done..|].
  by exists p, y.
Qed.

End LineFacts.

Section CrtshFacts.

Lemma crtsh_entry_fold domain (pieces : list string) : ∀ (subs : gset string) r,
  r ∈ fold_left
        (λ subs sub,
           if PyLine.contains domain sub then {[PyLine.strip sub]} ∪ subs else subs)
        pieces subs ↔
  r ∈ subs ∨
  ∃ sub, sub ∈ pieces ∧ PyLine.contains domain sub = true ∧ r = PyLine.strip sub.
Proof.
  induction pieces as [|x pieces IH]; intros subs r; cbn [fold_left].
  - split; [by left|]. intros [?|(sub & Hin & _)]; [done|].
    by apply elem_of_nil in Hin.
  - rewrite IH. destruct (PyLine.contains domain x) eqn:Hx.
    + rewrite elem_of_union, elem_of_singleton. split.
      * intros [[->|?]|(sub & Hin & Hc & ->)].
        -- right. exists x. split; [apply list_elem_of_here|done].
        -- by left.
        -- right. exists sub. split; [by apply list_elem_of_further|done].
      * intros [?|(sub & Hin & Hc & ->)]; [left; by right|].
        apply elem_of_cons in Hin as [->|Hin]; [left; by left|].
        right. by exists sub.
    + split.
      * intros [?|(sub & Hin & Hc & ->)]; [by left|].
        right. exists sub. split; [by apply list_elem_of_further|done].
      * intros [?|(sub & Hin & Hc & ->)]; [by left|].
        apply elem_of_cons in Hin as [->|Hin]; [congruence|].
        right. by exists sub.
Qed.

Lemma crtsh_entries_elem domain (names : list string) : ∀ (subs : gset string),
  ∃ found, crtsh_entries domain (Some <$> names) subs = Some found ∧
    ∀ r, r ∈ found ↔
         r ∈ subs ∨
         ∃ name sub, name ∈ names ∧ sub ∈ PyLine.split "010"%char name ∧
           PyLine.contains domain sub = true ∧ r = PyLine.strip sub.
Proof.
  induction names as [|name names IH]; intros subs; csimpl.
  - exists subs. split; [done|]. intros r. split; [by left|].
    intros [?|(name & sub & Hin & _)]; [done|]. by apply elem_of_nil in Hin.
  - destruct (IH (crtsh_entry domain name subs)) as (found & -> & Hfound).
    exists found. split; [done|]. intros r. rewrite Hfound.
    unfold crtsh_entry. rewrite crtsh_entry_fold. split.
    + intros [[?|(sub & Hin & Hc & ->)]|(name' & sub & Hn & Hin & Hc & ->)].
      * by left.
      * right. exists name, sub. split; [apply list_elem_of_here|done].
      * right. exists name', sub. split; [by apply list_elem_of_further|done].
    + intros [?|(name' & sub & Hn & Hin & Hc & ->)]; [left; by left|].
      apply elem_of_cons in Hn as [->|Hn].
      * left. right. by exists sub.
      * right. by exists name', sub.
Qed.

Lemma crtsh_entries_raise domain (data : list (option string)) : ∀ subs,
  None ∈ data → crtsh_entries domain data subs = None.
Proof.
  induction data as [|[name|] data IH]; intros subs Hin; simpl.
  - by apply elem_of_nil in Hin.
  - apply IH. by apply elem_of_cons in Hin as [?|?].
  - done.
Qed.

Lemma sorted_elem (words : gset string) w : w ∈ PyLine.sorted words ↔ w ∈ words.
Proof. unfold PyLine.sorted. by rewrite merge_sort_Permutation, elem_of_elements. Qed.

Lemma sorted_ascending (words : gset string) :
  StronglySorted String.le (PyLine.sorted words) ∧ NoDup (PyLine.sorted words).
Proof.
  unfold PyLine.sorted. split.
  - apply (StronglySorted_merge_sort _).
  - rewrite merge_sort_Permutation. apply NoDup_elements.
Qed.

End CrtshFacts.

Section CrtshResultFacts.

Lemma crtsh_data_names (data : list (option string)) :
  None ∉ data → ∃ names, data = Some <$> names.
Proof.
  induction data as [|[name|] data IH]; intros Hnone.
  - by exists [].
  - destruct IH as (names & ->).
    + intros Hin. apply Hnone. by apply list_elem_of_further.
    + by exists (name :: names).
  - exfalso. apply Hnone, list_elem_of_here.
Qed.

Lemma crtsh_result_elem domain (names : list string) r :
  r ∈ get_subdomains_crtsh (Some (Some <$> names)) domain ↔
  ∃ name sub, name ∈ names ∧ sub ∈ PyLine.split "010"%char name ∧
    PyLine.contains domain sub = true ∧ r = PyLine.strip sub.
Proof.
  unfold get_subdomains_crtsh.
  destruct (crtsh_entries_elem domain names ∅) as (found & -> & Hfound).
  rewrite sorted_elem, Hfound. split; [|by right].
  intros [Hin|?]; [by apply elem_of_empty in Hin|done].
Qed.

Lemma crtsh_entries_raise_result domain (data : list (option string)) :
  None ∈ data → get_subdomains_crtsh (Some data) domain = [].
Proof. intros Hnone. unfold get_subdomains_crtsh. by rewrite crtsh_entries_raise. Qed.

End CrtshResultFacts.

(** Property X25 (the names come back sorted). The list
    [get_subdomains_crtsh] returns is in ascending order and has no name
    twice, whatever the response was. *)
Theorem crtsh_names_are_sorted (response : option (list (option string)))
    (domain : string) :
  StronglySorted String.le (get_subdomains_crtsh response domain) ∧
  NoDup (get_subdomains_crtsh response domain).
Proof.
  unfold get_subdomains_crtsh.
  destruct response as [data|]; [|split; constructor].
  destruct (crtsh_entries domain data ∅) as [subs|]; [|split; constructor].
  apply sorted_ascending.
Qed.

(** Property X26 (one bad entry discards everything). If reading the
    ['name_value'] of any entry of the response raises, the function returns
    the empty list: the names collected from the entries before it are
    dropped as well. *)
Theorem crtsh_one_bad_entry_discards_all (data : list (option string))
    (domain : string) :
  None ∈ data → get_subdomains_crtsh (Some data) domain = [].
Proof.
  intros Hnone. unfold get_subdomains_crtsh.
  by rewrite crtsh_entries_raise.
Qed.

Lemma crtsh_one_bad_entry_discards_all_witness :
  None ∈ [Some "www.example.com"; None; Some "mail.example.com"] ∧
  get_subdomains_crtsh
    (Some [Some "www.example.com"; None; Some "mail.example.com"]) "example.com"
  = [].
Proof.
  assert (None ∈ [Some "www.example.com"; None; Some "mail.example.com"]) as Hnone
    by apply list_elem_of_further, list_elem_of_here.
  split; [exact Hnone | exact (crtsh_one_bad_entry_discards_all _ _ Hnone)].
Defined.

(** Property X27 (which names come back). When every entry of the response
    can be read, a name is returned exactly when it is the stripped form of
    a line of some entry's ['name_value'] that contains the domain. *)
Theorem crtsh_names_are_stripped_matching_lines (names : list string)
    (domain r : string) :
  r ∈ get_subdomains_crtsh (Some (Some <$> names)) domain ↔
  ∃ name sub, name ∈ names ∧ sub ∈ PyLine.split "010"%char name ∧
    PyLine.contains domain sub = true ∧ r = PyLine.strip sub.
Proof. apply crtsh_result_elem. Qed.

(** Property X28 (every name has the domain in it). For a non-empty domain
    without white space at its ends, every name [get_subdomains_crtsh]
    returns still contains the domain after stripping. *)
Theorem crtsh_names_contain_domain (response : option (list (option string)))
    (domain r : string) :
  domain ≠ EmptyString →
  PyLine.strip domain = domain →
  r ∈ get_subdomains_crtsh response domain →
  PyLine.contains domain r = true.
Proof.
  intros Hne Hstrip Hin.
  destruct response as [data|]; [|by apply elem_of_nil in Hin].
  destruct (decide (None ∈ data)) as [Hnone|Hnone].
  { rewrite crtsh_entries_raise_result in Hin by done. by apply elem_of_nil in Hin. }
  destruct (crtsh_data_names data Hnone) as (names & ->).
  apply crtsh_result_elem in Hin as (name & sub & _ & _ & Hc & ->).
  apply contains_spec in Hc as (a & b & ->).
  destruct (strip_fixed domain Hne Hstrip) as (x & d' & p & y & Hx & Hy & Hsx & Hsy).
  apply contains_spec. exists (PyLine.lstrip a), (PyLine.rstrip b).
  unfold PyLine.strip.
  rewrite Hx at 1. change (String x d' ++ b) with (String x (d' ++ b)).
  rewrite lstrip_app by done.
  change (String x (d' ++ b)) with (String x d' ++ b). rewrite <- Hx.
  rewrite Hy at 1. rewrite (append_assoc p), <- (append_assoc _ p).
  change (String y EmptyString ++ b) with (String y b).
  rewrite rstrip_app by done.
  rewrite (append_assoc _ p).
  change (String y (PyLine.rstrip b)) with (String y EmptyString ++ PyLine.rstrip b).
  by rewrite <- (append_assoc p), <- Hy.
Qed.

Lemma crtsh_names_contain_domain_witness :
  "example.com" ≠ EmptyString ∧
  PyLine.strip "example.com" = "example.com" ∧
  "www.example.com" ∈
    get_subdomains_crtsh (Some [Some " www.example.com
*.example.com"; Some "other.org"]) "example.com" ∧
  PyLine.contains "example.com" "www.example.com" = true.
Proof.
  assert ("example.com" ≠ EmptyString) as Hne by done.
  assert (PyLine.strip "example.com" = "example.com") as Hstrip by (vm_compute; done).
  assert ("www.example.com" ∈
            get_subdomains_crtsh (Some [Some " www.example.com
*.example.com"; Some "other.org"]) "example.com") as Hin
    by (apply (bool_decide_unpack _); vm_compute; exact I).
  split; [exact Hne|]. split; [exact Hstrip|]. split; [exact Hin|].
  exact (crtsh_names_contain_domain _ _ _ Hne Hstrip Hin).
Defined.
